(** * The Prometheus output of gnmic: event-to-metric translation and the
      expiring metric store

    A shallow embedding of [outputs/prometheus_output/prometheus_output.go]:
    label projection ([getLabels]), metric naming ([metricName]), value
    coercion ([getFloat]), the identity key ([calculateKey]), the ingestion
    step of [worker], the eviction sweep ([expireMetrics]) and the export
    ([Collect]).

    Conventions.
    - A Go [string] is a sequence of bytes: [string] of the Standard Library,
      whose characters are the 256 values of [ascii].
    - [uint64] is [N] with the reduction modulo [2^64] written out.
    - A [time.Time] is the instant it denotes, in nanoseconds since the Unix
      epoch, as an unbounded [Z]; a [time.Duration] is a [Z] of nanoseconds.
    - A Go map that is only ranged over ([ev.Tags], [ev.Values]) is the list of
      its entries in the order in which [range] visits them.  Go does not fix
      that order; every statement below holds for every order.
    - [p.entries] is a [gmap] from keys to metrics.  The label slice of a metric
      is a reference into a store of slices, because all metrics of one event
      share one backing array, which [calculateKey] sorts in place.
    - A nil pointer dereference ends a computation with [Panic].
    - The goroutines are the threads of a transition system whose steps
      interleave; the mutex of the output is held by at most one of them. *)

From Stdlib Require Import ZArith NArith Ascii String List Lia.
From Stdlib Require Import Sorting.Sorted Sorting.Permutation.
From stdpp Require Import base option list gmap strings sorting fin_maps.

(** ** Strings and the library functions used on them *)

Definition byte_in (lo hi : N) (c : ascii) : bool :=
  (N.leb lo (N_of_ascii c) && N.leb (N_of_ascii c) hi)%bool.

(** The bytes of the class [a-zA-Z0-9_]; [metricNameRegex] is its complement,
    repeated one or more times. *)
Definition nameChar (c : ascii) : bool :=
  (byte_in 97 122 c || byte_in 65 90 c || byte_in 48 57 c
   || Ascii.eqb c "_")%bool.

(** [p.metricRegex.ReplaceAllString(s, "_")] for the expression
    ["[^a-zA-Z0-9_]+"]: every maximal run of bytes outside the class is
    replaced by one underscore.  [inRun] tells that the byte before the
    current one belonged to such a run, whose underscore is already written. *)
Fixpoint replaceRuns (inRun : bool) (s : string) : string :=
  match s with
  | EmptyString => EmptyString
  | String c rest =>
      if nameChar c then String c (replaceRuns false rest)
      else if inRun then replaceRuns true rest
      else String "_" (replaceRuns true rest)
  end.

Definition ReplaceAllString (s : string) : string := replaceRuns false s.

(** [strings.TrimLeft(s, c)] and [strings.TrimRight(s, c)] for a cutset of
    one byte. *)
Fixpoint TrimLeft (c : ascii) (s : string) : string :=
  match s with
  | EmptyString => EmptyString
  | String a rest => if Ascii.eqb a c then TrimLeft c rest else s
  end.

Fixpoint TrimRight (c : ascii) (s : string) : string :=
  match s with
  | EmptyString => EmptyString
  | String a rest =>
      match TrimRight c rest with
      | EmptyString => if Ascii.eqb a c then EmptyString else String a EmptyString
      | r => String a r
      end
  end.

Fixpoint hasSeparator (s : string) : bool :=
  match s with
  | EmptyString => false
  | String a rest => (Ascii.eqb a "/" || hasSeparator rest)%bool
  end.

(** The part of [s] after its last path separator. *)
Fixpoint lastElement (s : string) : string :=
  match s with
  | EmptyString => EmptyString
  | String a rest =>
      if hasSeparator rest then lastElement rest
      else if Ascii.eqb a "/" then rest else s
  end.

(** [filepath.Base] on a system whose separator is the slash and that has no
    volume names. *)
Definition Base (path : string) : string :=
  if String.eqb path "" then "."
  else
    let path := lastElement (TrimRight "/" path) in
    if String.eqb path "" then "/" else path.

(** ** The 64-bit FNV-1a hash of [hash/fnv] *)

Definition offset64 : N := 14695981039346656037.
Definition prime64 : N := 1099511628211.
Definition wrap64 (n : N) : N := n mod 2 ^ 64.

(** One byte of the [Write] method of the 64-bit FNV-1a state: exclusive or,
    then multiplication by the prime, modulo [2^64]. *)
Definition fnvByte (h : N) (c : ascii) : N :=
  wrap64 (N.lxor h (N_of_ascii c) * prime64).

Fixpoint fnvWrite (h : N) (s : string) : N :=
  match s with
  | EmptyString => h
  | String c rest => fnvWrite (fnvByte h c) rest
  end.

(** ** Data model *)

Record labelPair := LabelPair { Name : string; Value : string }.

Definition Time := Z.
Definition Duration := Z.
Bind Scope Z_scope with Time Duration.

(** [t.Before(u)], [t.Add(d)] and [time.Unix(0, nsec)]. *)
Definition Before (t u : Time) : bool := (t <? u)%Z.
Definition Add (t : Time) (d : Duration) : Time := (t + d)%Z.
Definition Unix0 (nsec : Z) : Time := nsec.

Definition second : Duration := 1000000000%Z.
Definition minute : Duration := (60 * second)%Z.
Definition defaultExpiration : Duration := minute.
Definition defaultListen : string := ":9804".
Definition defaultPath : string := "/metrics".

(** A reference to the backing array of a label slice. *)
Definition sliceRef := nat.

(** The result of code that can hit a nil pointer dereference. *)
Inductive outcome (A : Type) : Type :=
| Done (a : A)
| Panic.
Arguments Done {A} a.
Arguments Panic {A}.

Definition bindOutcome {A B} (o : outcome A) (k : A → outcome B) : outcome B :=
  match o with
  | Done a => k a
  | Panic => Panic
  end.

Notation "x ←! o ; k" := (bindOutcome o (fun x => k))
  (at level 20, o at level 100, k at level 200, right associativity,
   only parsing).

Inductive error : Type :=
| ErrSyntax        (* the error of [strconv.ParseFloat] *)
| ErrIncompatible. (* "getFloat: unknown value is of incompatible type" *)

(** A value of the empty interface, by dynamic type.  The first thirteen
    constructors are the cases of the type switch of [getFloat]; [A_nil],
    [A_bool] and [A_bytes] stand for the dynamic types that reach its
    [default] case.  Floating-point numbers are carried, never inspected:
    their types are parameters.  Integers are [Z], whatever their width. *)
Inductive any (float64 float32 : Type) : Type :=
| A_float64 (f : float64)
| A_float32 (f : float32)
| A_int64 (i : Z)
| A_int32 (i : Z)
| A_int16 (i : Z)
| A_int8 (i : Z)
| A_uint64 (i : Z)
| A_uint32 (i : Z)
| A_uint16 (i : Z)
| A_uint8 (i : Z)
| A_int (i : Z)
| A_uint (i : Z)
| A_string (s : string)
| A_nil
| A_bool (b : bool)
| A_bytes (b : list ascii).
Arguments A_float64 {float64 float32} f.
Arguments A_float32 {float64 float32} f.
Arguments A_int64 {float64 float32} i.
Arguments A_int32 {float64 float32} i.
Arguments A_int16 {float64 float32} i.
Arguments A_int8 {float64 float32} i.
Arguments A_uint64 {float64 float32} i.
Arguments A_uint32 {float64 float32} i.
Arguments A_uint16 {float64 float32} i.
Arguments A_uint8 {float64 float32} i.
Arguments A_int {float64 float32} i.
Arguments A_uint {float64 float32} i.
Arguments A_string {float64 float32} s.
Arguments A_nil {float64 float32}.
Arguments A_bool {float64 float32} b.
Arguments A_bytes {float64 float32} b.

(** The kinds the specification calls the supported scalar set. *)
Definition supportedKind {F G} (v : any F G) : bool :=
  match v with
  | A_nil | A_bool _ | A_bytes _ => false
  | _ => true
  end.

(** [formatters.EventMsg], as far as this package reads it. *)
Module formatters.
Record EventMsg (V : Type) : Type := {
  Name : string;
  Timestamp : Z;
  Tags : list (string * string);
  Values : list (string * V)
}.
Arguments Name {V} e.
Arguments Timestamp {V} e.
Arguments Tags {V} e.
Arguments Values {V} e.
End formatters.

(** ** What the package takes from its environment

    Floating-point numbers with [math.NaN()], the constant [1.0], the
    conversions [float64(i)] and [strconv.ParseFloat(s, 64)] (which fails with
    [None]); [sort.Slice], as the slice after the call from the slice before
    it; the service registration block with [setServiceRegistrationDefaults],
    which are declared in another file of the package and act on that block;
    [net.SplitHostPort] and [strconv.Atoi], which fail with [None]. *)
Class Library := {
  float64 : Type;
  float32 : Type;
  NaN : float64;
  one : float64;
  float64_of_float32 : float32 → float64;
  float64_of_int : Z → float64;
  ParseFloat : string → option float64;
  sortSlice : ∀ A : Type, (A → A → bool) → list A → list A;
  ServiceRegistration : Type;
  setServiceRegistrationDefaults :
    option ServiceRegistration → option ServiceRegistration;
  SplitHostPort : string → option (string * string);
  Atoi : string → option Z
}.

(** What [sort.Interface] asks of [Less]. *)
Record TransitiveOrdering {A : Type} (less : A → A → bool) : Prop := {
  less_irrefl : ∀ a, less a a = false;
  less_trans : ∀ a b c, less a b = true → less b c = true → less a c = true;
  not_less_trans :
    ∀ a b c, less a b = false → less b c = false → less a c = false
}.

(** What [sort.Slice] promises: the elements are kept, and afterwards no
    element is less than its predecessor.  Nothing is promised on the order
    of elements neither of which is less than the other: the sort is not
    stable. *)
Class SortSliceSpec (L : Library) : Prop := {
  sortSlice_Permutation :
    ∀ A (less : A → A → bool) l, sortSlice A less l ≡ₚ l;
  sortSlice_Sorted :
    ∀ A (less : A → A → bool) l,
      TransitiveOrdering less →
      Sorted (λ a b, less b a = false) (sortSlice A less l)
}.

Abbreviation anyValue := (any float64 float32).
Abbreviation EventMsg := (formatters.EventMsg anyValue).

Section PrometheusOutput.

Context {L : Library}.

Record promMetric := PromMetric {
  name : string;
  labels : sliceRef;
  time : option Time;
  value : float64;
  addedAt : Time
}.

Record Config := {
  Listen : string;
  Path : string;
  Expiration : Duration;
  MetricPrefix : string;
  AppendSubscriptionName : bool;
  ExportTimestamps : bool;
  StringsAsLabels : bool;
  ServiceRegistrationCfg : option ServiceRegistration;
  address : string;
  port : Z
}.

(** The output plugin: its configuration, its entries, and the backing
    arrays of the label slices its metrics refer to. *)
Record PrometheusOutput := {
  Cfg : Config;
  entries : gmap N promMetric;
  slices : list (list labelPair)
}.

Definition withCfg (c : Config) (p : PrometheusOutput) : PrometheusOutput :=
  {| Cfg := c; entries := entries p; slices := slices p |}.
Definition withEntries (m : gmap N promMetric) (p : PrometheusOutput) :=
  {| Cfg := Cfg p; entries := m; slices := slices p |}.
Definition withSlices (h : list (list labelPair)) (p : PrometheusOutput) :=
  {| Cfg := Cfg p; entries := entries p; slices := h |}.

(** The elements of the slice behind a reference. *)
Definition readSlice (h : list (list labelPair)) (r : sliceRef) :=
  default [] (h !! r).

(** *** Value coercion *)

Definition getFloat (v : anyValue) : float64 * option error :=
  match v with
  | A_float64 i => (i, None)
  | A_float32 i => (float64_of_float32 i, None)
  | A_int64 i | A_int32 i | A_int16 i | A_int8 i
  | A_uint64 i | A_uint32 i | A_uint16 i | A_uint8 i
  | A_int i | A_uint i => (float64_of_int i, None)
  | A_string i =>
      match ParseFloat i with
      | None => (NaN, Some ErrSyntax)
      | Some f => (f, None)
      end
  | _ => (NaN, Some ErrIncompatible)
  end.

(** *** Label projection *)

Definition labelName (k : string) : string := ReplaceAllString (Base k).

(** The body of the loop over [ev.Tags]; the state is [labels] and
    [addedLabels]. *)
Definition tagStep (st : list labelPair * gset string) (kv : string * string)
  : list labelPair * gset string :=
  let '(labels, addedLabels) := st in
  let '(k, v) := kv in
  if decide (labelName k ∈ addedLabels) then st
  else (labels ++ [LabelPair (labelName k) v], {[labelName k]} ∪ addedLabels).

(** The body of the loop over [ev.Values]. *)
Definition valueStep (st : list labelPair * gset string) (kv : string * anyValue)
  : list labelPair * gset string :=
  let '(labels, addedLabels) := st in
  let '(k, v) := kv in
  match snd (getFloat v) with
  | None => st
  | Some _ =>
      match v with
      | A_string vs =>
          if decide (labelName k ∈ addedLabels) then st
          else (labels ++ [LabelPair (labelName k) vs], addedLabels)
      | _ => st
      end
  end.

Definition getLabels (cfg : Config) (ev : EventMsg) : list labelPair :=
  let st := foldl tagStep ([], ∅) (formatters.Tags ev) in
  if negb (StringsAsLabels cfg) then fst st
  else fst (foldl valueStep st (formatters.Values ev)).

(** *** Metric naming *)

Definition metricName (cfg : Config) (measName valueName : string) : string :=
  let sb := "" in
  let sb :=
    if negb (String.eqb (MetricPrefix cfg) "")
    then sb +:+ ReplaceAllString (MetricPrefix cfg) +:+ "_" else sb in
  let sb :=
    if AppendSubscriptionName cfg
    then sb +:+ TrimRight "_" (ReplaceAllString measName) +:+ "_" else sb in
  sb +:+ TrimLeft "_" (ReplaceAllString valueName).

(** *** Metric identity *)

Definition lessName (a b : labelPair) : bool := String.ltb (Name a) (Name b).

Definition writeLabel (h : N) (label : labelPair) : N :=
  fnvWrite (fnvWrite (fnvWrite (fnvWrite h (Name label)) ":") (Value label)) ":".

(** The key, and the slice store after the in-place sort. *)
Definition calculateKey (p : promMetric) (heap : list (list labelPair))
  : N * list (list labelPair) :=
  let h := fnvWrite offset64 (name p) in
  let ls := readSlice heap (labels p) in
  if (0 <? length ls)%nat then
    let h := fnvWrite h ":" in
    let sorted := sortSlice labelPair lessName ls in
    (foldl writeLabel h sorted, <[labels p := sorted]> heap)
  else (h, heap).

(** *** The ingestion step of [worker] *)

(** Lines 331 to 338: the key of [pm], then the conditional store.
    [e.time.Before] dereferences [e.time]. *)
Definition upsert (pm : promMetric) (p : PrometheusOutput)
  : outcome PrometheusOutput :=
  let '(key, heap) := calculateKey pm (slices p) in
  let p := withSlices heap p in
  match entries p !! key, time pm with
  | Some e, Some t =>
      match time e with
      | None => Panic
      | Some te =>
          if Before te t then Done (withEntries (<[key := pm]> (entries p)) p)
          else Done p
      end
  | _, _ => Done (withEntries (<[key := pm]> (entries p)) p)
  end.

(** The body of the loop over [ev.Values]; [labels] is the slice that
    [getLabels] returned for the event. *)
Definition worker_value (now : Time) (ev : EventMsg) (labels : sliceRef)
    (kv : string * anyValue) (p : PrometheusOutput)
  : outcome PrometheusOutput :=
  let '(vName, val) := kv in
  let '(v, err) := getFloat val in
  if bool_decide (err ≠ None) && negb (StringsAsLabels (Cfg p)) then Done p
  else
    let v := if bool_decide (err ≠ None) then one else v in
    let pm := {|
      name := metricName (Cfg p) (formatters.Name ev) vName;
      labels := labels;
      value := v;
      addedAt := now;
      time := if ExportTimestamps (Cfg p)
              then Some (Unix0 (formatters.Timestamp ev)) else None
    |} in
    upsert pm p.

(** One event taken from [p.eventChan], between [p.Lock()] and
    [p.Unlock()]; [now] is what [time.Now()] returns.  The slice made by
    [getLabels] is new: it gets the next free reference. *)
Definition worker_event (now : Time) (ev : EventMsg) (p : PrometheusOutput)
  : outcome PrometheusOutput :=
  let labels := length (slices p) in
  let p := withSlices (slices p ++ [getLabels (Cfg p) ev]) p in
  foldl (λ acc kv, p ←! acc; worker_value now ev labels kv p)
        (Done p) (formatters.Values ev).

(** *** Eviction *)

(** The body of the loop over [p.entries], on the entries still present.
    Deleting the entry that is visited does not disturb the loop: every entry
    is visited once. *)
Definition expireEntry (cfg : Config) (expiry : Time) (k : N) (e : promMetric)
    (acc : outcome (gmap N promMetric)) : outcome (gmap N promMetric) :=
  m ←! acc;
  if ExportTimestamps cfg then
    match time e with
    | None => Panic
    | Some t => if Before t expiry then Done (delete k m) else Done m
    end
  else if Before (addedAt e) expiry then Done (delete k m) else Done m.

(** [map_fold] visits the entries in one order; the result is the same in
    every order (see [expireEntry_visit_order]). *)
Definition expireMetrics (now : Time) (p : PrometheusOutput)
  : outcome PrometheusOutput :=
  if (Expiration (Cfg p) <=? 0)%Z then Done p
  else
    let expiry := Add now (- Expiration (Cfg p))%Z in
    m ←! map_fold (expireEntry (Cfg p) expiry) (Done (entries p)) (entries p);
    Done (withEntries m p).

(** [expireMetricsPeriodic]: the sweeps at the ticks [ticks] of the ticker,
    none when expiration is off. *)
Definition expireMetricsPeriodic (ticks : list Time) (p : PrometheusOutput)
  : outcome PrometheusOutput :=
  if (Expiration (Cfg p) <=? 0)%Z then Done p
  else foldl (λ acc now, p ←! acc; expireMetrics now p) (Done p) ticks.

(** *** Export *)

(** The metrics sent on [ch], and the output afterwards. *)
Definition Collect (now : Time) (p : PrometheusOutput)
  : outcome (list promMetric * PrometheusOutput) :=
  p ←! expireMetrics now p;
  Done (snd <$> map_to_list (entries p), p).

(** *** Configuration *)

(** The output with its defaults set, and the error returned.  What [Atoi]
    returns besides an error is taken to be zero. *)
Definition setDefaults (p : PrometheusOutput)
  : PrometheusOutput * option error :=
  let cfg := Cfg p in
  let listen :=
    if String.eqb (Listen cfg) "" then defaultListen else Listen cfg in
  let path := if String.eqb (Path cfg) "" then defaultPath else Path cfg in
  let expiration :=
    if (Expiration cfg =? 0)%Z then defaultExpiration else Expiration cfg in
  let sr := setServiceRegistrationDefaults (ServiceRegistrationCfg cfg) in
  let mk (a : string) (n : Z) := withCfg {|
    Listen := listen; Path := path; Expiration := expiration;
    MetricPrefix := MetricPrefix cfg;
    AppendSubscriptionName := AppendSubscriptionName cfg;
    ExportTimestamps := ExportTimestamps cfg;
    StringsAsLabels := StringsAsLabels cfg;
    ServiceRegistrationCfg := sr;
    address := a; port := n |} p in
  match SplitHostPort listen with
  | None => (mk "" (port cfg), Some ErrSyntax)
  | Some (host, prt) =>
      match Atoi prt with
      | None => (mk host 0%Z, Some ErrSyntax)
      | Some n => (mk host n, None)
      end
  end.

(** The output that [init] registers, with the decoded configuration:
    no entries yet. *)
Definition newOutput (cfg : Config) : PrometheusOutput :=
  {| Cfg := cfg; entries := ∅; slices := [] |}.

End PrometheusOutput.

(** ** The metric as a [prometheus.Metric]

    What [Desc] passes to [prometheus.NewDesc] and what [Write] stores in a
    [dto.Metric].  The label slice is read through its reference.  [UnixNano]
    is exact on the timestamps that the package makes, [time.Unix(0, nsec)]
    with [nsec] an [int64]. *)

(** [dto.LabelPair] and the fields of [dto.Metric] that [Write] sets. *)
Module dto.
Record LabelPair : Type := { Name : string; Value : string }.
Record Metric {L : Library} : Type := {
  Label : list LabelPair;
  Untyped : option float64;
  TimestampMs : option Z
}.
End dto.

(** The arguments that [Desc] passes to [prometheus.NewDesc]. *)
Record descArgs : Type := {
  fqName : string;
  help : string;
  variableLabels : list string
}.

Definition defaultMetricHelp : string := "gNMIc generated metric".

(** [t.UnixNano()].  [Write] divides it as an [int64]: the division
    truncates toward zero, as [Z.quot] does. *)
Definition UnixNano (t : Time) : Z := t.

Section MetricExport.

Context {L : Library}.

Definition Desc (p : promMetric) (heap : list (list labelPair)) : descArgs :=
  {| fqName := name p;
     help := defaultMetricHelp;
     variableLabels := Name <$> readSlice heap (labels p) |}.

(** [Write]: the metric written into [out], and the error, which is always
    nil.  Without a timestamp the function returns before it touches
    [out.TimestampMs]. *)
Definition Write (p : promMetric) (heap : list (list labelPair))
    (out : dto.Metric) : dto.Metric * option error :=
  let label :=
    (λ lb, {| dto.Name := Name lb; dto.Value := Value lb |})
      <$> readSlice heap (labels p) in
  match time p with
  | None =>
      ({| dto.Label := label; dto.Untyped := Some (value p);
          dto.TimestampMs := dto.TimestampMs out |}, None)
  | Some t =>
      ({| dto.Label := label; dto.Untyped := Some (value p);
          dto.TimestampMs := Some (Z.quot (UnixNano t) 1000000) |}, None)
  end.

End MetricExport.

(** ** The goroutines and the lock

    The worker, the periodic sweeper and the calls of [Collect] run
    interleaved; [p.Lock()] takes the mutex when nobody holds it, and
    [p.Unlock()] gives it back.  A state says where each of them is in its
    code. *)

Inductive owner : Type :=
| OWorker
| OExpirer
| OCollector (i : nat).

(** [worker]: blocked in [select]; an event received, before [p.Lock()];
    the lock taken, before [getLabels]; in the loop over [ev.Values] with
    [rest] still to visit, [p.Unlock()] coming after the last; returned. *)
Inductive workerPc {L : Library} : Type :=
| WSelect
| WEvent (ev : EventMsg)
| WLocked (ev : EventMsg)
| WLoop (now : Time) (ev : EventMsg) (labels : sliceRef)
    (rest : list (string * anyValue))
| WReturned.

(** [expireMetricsPeriodic]: at its first test; blocked in [select]; a tick
    received, before [p.Lock()]; the lock taken, before [expireMetrics];
    before [p.Unlock()]; returned. *)
Inductive expirerPc : Type :=
| EStart
| ESelect
| ETick
| ELocked
| ESwept
| EReturned.

(** A call of [Collect]: before [p.Lock()]; the lock taken, before
    [expireMetrics]; before the loop that sends the entries; before the
    deferred [p.Unlock()]. *)
Inductive collectorPc : Type :=
| CCalled
| CLocked
| CSwept
| CSent.

Record system {L : Library} : Type := {
  out : PrometheusOutput;
  mutex : option owner;
  workerAt : workerPc;
  expirerAt : expirerPc;
  collectors : gmap nat collectorPc
}.

Definition setOut {L : Library} (p : PrometheusOutput) (s : system) : system :=
  {| out := p; mutex := mutex s; workerAt := workerAt s;
     expirerAt := expirerAt s; collectors := collectors s |}.
Definition setMutex {L : Library} (m : option owner) (s : system) : system :=
  {| out := out s; mutex := m; workerAt := workerAt s;
     expirerAt := expirerAt s; collectors := collectors s |}.
Definition setWorker {L : Library} (w : workerPc) (s : system) : system :=
  {| out := out s; mutex := mutex s; workerAt := w;
     expirerAt := expirerAt s; collectors := collectors s |}.
Definition setExpirer {L : Library} (e : expirerPc) (s : system) : system :=
  {| out := out s; mutex := mutex s; workerAt := workerAt s;
     expirerAt := e; collectors := collectors s |}.
Definition setCollectors {L : Library} (c : gmap nat collectorPc) (s : system)
  : system :=
  {| out := out s; mutex := mutex s; workerAt := workerAt s;
     expirerAt := expirerAt s; collectors := c |}.

(** What a step shows to the scrape: nothing, or the metrics that call [i] of
    [Collect] sends on its channel. *)
Inductive label {L : Library} : Type :=
| Silent
| Sent (i : nat) (ms : list promMetric).

Inductive step {L : Library} : system → label → system → Prop :=
| worker_receive s ev :
    workerAt s = WSelect →
    step s Silent (setWorker (WEvent ev) s)
| worker_cancel s :
    workerAt s = WSelect →
    step s Silent (setWorker WReturned s)
| worker_lock s ev :
    workerAt s = WEvent ev → mutex s = None →
    step s Silent (setWorker (WLocked ev) (setMutex (Some OWorker) s))
| worker_labels s ev now :
    workerAt s = WLocked ev →
    step s Silent
      (setWorker (WLoop now ev (length (slices (out s))) (formatters.Values ev))
         (setOut (withSlices (slices (out s) ++ [getLabels (Cfg (out s)) ev])
                    (out s)) s))
| worker_loop s now ev labels kv rest p' :
    workerAt s = WLoop now ev labels (kv :: rest) →
    worker_value now ev labels kv (out s) = Done p' →
    step s Silent (setWorker (WLoop now ev labels rest) (setOut p' s))
| worker_unlock s now ev labels :
    workerAt s = WLoop now ev labels [] →
    step s Silent (setWorker WSelect (setMutex None s))
| expirer_off s :
    expirerAt s = EStart → (Expiration (Cfg (out s)) ≤ 0)%Z →
    step s Silent (setExpirer EReturned s)
| expirer_on s :
    expirerAt s = EStart → (0 < Expiration (Cfg (out s)))%Z →
    step s Silent (setExpirer ESelect s)
| expirer_tick s :
    expirerAt s = ESelect →
    step s Silent (setExpirer ETick s)
| expirer_cancel s :
    expirerAt s = ESelect →
    step s Silent (setExpirer EReturned s)
| expirer_lock s :
    expirerAt s = ETick → mutex s = None →
    step s Silent (setExpirer ELocked (setMutex (Some OExpirer) s))
| expirer_sweep s now p' :
    expirerAt s = ELocked → expireMetrics now (out s) = Done p' →
    step s Silent (setExpirer ESwept (setOut p' s))
| expirer_unlock s :
    expirerAt s = ESwept →
    step s Silent (setExpirer ESelect (setMutex None s))
| collect_call s i :
    collectors s !! i = None →
    step s Silent (setCollectors (<[i := CCalled]> (collectors s)) s)
| collect_lock s i :
    collectors s !! i = Some CCalled → mutex s = None →
    step s Silent
      (setCollectors (<[i := CLocked]> (collectors s))
         (setMutex (Some (OCollector i)) s))
| collect_sweep s i now p' :
    collectors s !! i = Some CLocked → expireMetrics now (out s) = Done p' →
    step s Silent (setCollectors (<[i := CSwept]> (collectors s)) (setOut p' s))
| collect_send s i :
    collectors s !! i = Some CSwept →
    step s (Sent i (snd <$> map_to_list (entries (out s))))
      (setCollectors (<[i := CSent]> (collectors s)) s)
| collect_return s i :
    collectors s !! i = Some CSent →
    step s Silent (setCollectors (delete i (collectors s)) (setMutex None s)).

Definition initSystem {L : Library} (cfg : Config) : system :=
  {| out := newOutput cfg; mutex := None; workerAt := WSelect;
     expirerAt := EStart; collectors := ∅ |}.

(** The states of the runs under the configuration [cfg]. *)
Inductive running {L : Library} (cfg : Config) : system → Prop :=
| running_init : running cfg (initSystem cfg)
| running_step s l s' : running cfg s → step s l s' → running cfg s'.

(** The worker is inside the loop over the values of an event. *)
Definition midEvent {L : Library} (s : system) : Prop :=
  ∃ now ev labels rest, workerAt s = WLoop now ev labels rest.

(** ** Notions used in the statements *)

(** The string consists of bytes of the class [a-zA-Z0-9_]. *)
Fixpoint allNameChars (s : string) : bool :=
  match s with
  | EmptyString => true
  | String c rest => (nameChar c && allNameChars rest)%bool
  end.

(** The age anchor of an entry, in the words of the specification: the
    observation timestamp when timestamps are exported, the ingestion
    timestamp otherwise. *)
Definition ageAnchor {L : Library} (cfg : Config) (e : promMetric)
  : option Time :=
  if ExportTimestamps cfg then time e else Some (addedAt e).

(** The outputs that the package can be in under the configuration [cfg]:
    the new output, and what an ingested event or a sweep (periodic, or at the
    start of [Collect]) makes of one of them. *)
Inductive reachable {L : Library} (cfg : Config) : PrometheusOutput → Prop :=
| reachable_new : reachable cfg (newOutput cfg)
| reachable_event (p p' : PrometheusOutput) (now : Time) (ev : EventMsg) :
    reachable cfg p → worker_event now ev p = Done p' → reachable cfg p'
| reachable_expire (p p' : PrometheusOutput) (now : Time) :
    reachable cfg p → expireMetrics now p = Done p' → reachable cfg p'.

(** Ascending order of label names: no label is less than its predecessor. *)
Definition nameOrder (a b : labelPair) : Prop := lessName b a = false.

(** [cfg] with the metric prefix empty and the subscription name not
    appended. *)
Definition plainNames {L : Library} (cfg : Config) : Config := {|
  Listen := Listen cfg; Path := Path cfg; Expiration := Expiration cfg;
  MetricPrefix := "";
  AppendSubscriptionName := false;
  ExportTimestamps := ExportTimestamps cfg;
  StringsAsLabels := StringsAsLabels cfg;
  ServiceRegistrationCfg := ServiceRegistrationCfg cfg;
  address := address cfg; port := port cfg |}.



(** Every entry has a timestamp exactly when timestamps are exported. *)
Definition timestamped {L : Library} (p : PrometheusOutput) : Prop :=
  ∀ k e, entries p !! k = Some e →
         (is_Some (time e) ↔ ExportTimestamps (Cfg p) = true).

(** The label slice of every entry is allocated and in ascending order of
    names. *)
Definition labelsSorted {L : Library} (p : PrometheusOutput) : Prop :=
  ∀ k e, entries p !! k = Some e →
         (labels e < length (slices p))%nat
         ∧ Sorted nameOrder (readSlice (slices p) (labels e)).

(** A goroutine is between its [Lock] and its [Unlock]. *)
Definition workerIn {L : Library} (w : workerPc) : Prop :=
  match w with
  | WLocked _ | WLoop _ _ _ _ => True
  | _ => False
  end.

Definition expirerIn (e : expirerPc) : Prop :=
  match e with
  | ELocked | ESwept => True
  | _ => False
  end.

Definition collectorIn (c : option collectorPc) : Prop :=
  match c with
  | Some CLocked | Some CSwept | Some CSent => True
  | _ => False
  end.

(** A goroutine is between its [Lock] and its [Unlock] exactly when the
    mutex is its own. *)
Definition exclusive {L : Library} (s : system) : Prop :=
  (workerIn (workerAt s) ↔ mutex s = Some OWorker)
  ∧ (expirerIn (expirerAt s) ↔ mutex s = Some OExpirer)
  ∧ ∀ i, collectorIn (collectors s !! i) ↔ mutex s = Some (OCollector i).

(** Outside the loop of the worker the output is one that whole events and
    sweeps lead to; inside, it is such an output with the values visited so
    far applied. *)
Definition consistent {L : Library} (cfg : Config) (s : system) : Prop :=
  match workerAt s with
  | WLoop now ev labels rest =>
      ∃ p0 visited,
        reachable cfg p0
        ∧ formatters.Values ev = visited ++ rest
        ∧ labels = length (slices p0)
        ∧ foldl (λ acc kv, p ←! acc; worker_value now ev labels kv p)
            (Done (withSlices (slices p0 ++ [getLabels (Cfg p0) ev]) p0))
            visited
          = Done (out s)
  | _ => reachable cfg (out s)
  end.

(** The bytes that [calculateKey] feeds to the hash for one label, and for a
    metric name with its sorted labels. *)
Definition labelBytes (label : labelPair) : string :=
  Name label +:+ ":" +:+ Value label +:+ ":".

Fixpoint labelsBytes (ls : list labelPair) : string :=
  match ls with
  | [] => ""
  | label :: rest => labelBytes label +:+ labelsBytes rest
  end.

Definition keyBytes (nm : string) (sorted : list labelPair) : string :=
  match sorted with
  | [] => nm
  | _ => nm +:+ ":" +:+ labelsBytes sorted
  end.

(** The labels that the loop over the tags of an event makes. *)
Definition tagLabels (tags : list (string * string)) : list labelPair :=
  (foldl tagStep ([], ∅) tags).1.

(** The string has no letter and no digit: each byte is an underscore or
    outside [a-zA-Z0-9_]. *)
Fixpoint noLetterOrDigit (s : string) : bool :=
  match s with
  | EmptyString => true
  | String c rest =>
      ((negb (nameChar c) || Ascii.eqb c "_") && noLetterOrDigit rest)%bool
  end.

(** The event without the values that [getFloat] refuses. *)
Definition numericValues {L : Library} (ev : EventMsg) : EventMsg :=
  {| formatters.Name := formatters.Name ev;
     formatters.Timestamp := formatters.Timestamp ev;
     formatters.Tags := formatters.Tags ev;
     formatters.Values :=
       filter (λ kv, (getFloat kv.2).2 = None) (formatters.Values ev) |}.

(** The loop of [expireMetrics] when [range] visits the entries in the order
    [visit]. *)
Definition expireMetricsIn {L : Library} (visit : list (N * promMetric))
    (now : Time) (p : PrometheusOutput) : outcome PrometheusOutput :=
  if (Expiration (Cfg p) <=? 0)%Z then Done p
  else
    let expiry := Add now (- Expiration (Cfg p))%Z in
    m ←! foldl (λ acc ke, expireEntry (Cfg p) expiry ke.1 ke.2 acc)
           (Done (entries p)) visit;
    Done (withEntries m p).

(** ** A library to run the model

    Floating-point numbers are the integers and a NaN; [ParseFloat] and [Atoi]
    read unsigned decimal integers and refuse every other string;
    [SplitHostPort] splits at the last colon; [sort.Slice] is insertion sort;
    there is no service registration. *)

(** Insertion sort, an implementation of [sort.Slice] to run the model. *)
Fixpoint insertSorted {A} (less : A → A → bool) (x : A) (l : list A) : list A :=
  match l with
  | [] => [x]
  | y :: l' => if less x y then x :: l else y :: insertSorted less x l'
  end.

Definition insertionSort (A : Type) (less : A → A → bool) (l : list A) : list A :=
  foldr (insertSorted less) [] l.

Definition digitValue (c : ascii) : option Z :=
  if byte_in 48 57 c then Some (Z.of_N (N_of_ascii c) - 48)%Z else None.

Fixpoint readDigits (acc : Z) (s : string) : option Z :=
  match s with
  | EmptyString => Some acc
  | String c rest =>
      match digitValue c with
      | Some d => readDigits (10 * acc + d)%Z rest
      | None => None
      end
  end.

Definition readDecimal (s : string) : option Z :=
  if String.eqb s "" then None else readDigits 0%Z s.

Fixpoint hasColon (s : string) : bool :=
  match s with
  | EmptyString => false
  | String a rest => (Ascii.eqb a ":" || hasColon rest)%bool
  end.

Fixpoint splitLastColon (s : string) : option (string * string) :=
  match s with
  | EmptyString => None
  | String a rest =>
      if hasColon rest then
        match splitLastColon rest with
        | Some (h, p) => Some (String a h, p)
        | None => None
        end
      else if Ascii.eqb a ":" then Some (EmptyString, rest) else None
  end.

#[local] Instance runLibrary : Library := {|
  float64 := option Z;
  float32 := option Z;
  NaN := None;
  one := Some 1%Z;
  float64_of_float32 := id;
  float64_of_int := Some;
  ParseFloat := λ s, Some <$> readDecimal s;
  sortSlice := insertionSort;
  ServiceRegistration := unit;
  setServiceRegistrationDefaults := id;
  SplitHostPort := splitLastColon;
  Atoi := readDecimal
|}.

(** A configuration with the given expiration and switches, everything else
    empty. *)
Definition runConfig (expiration : Duration)
    (exportTimestamps stringsAsLabels : bool) : Config := {|
  Listen := ""; Path := ""; Expiration := expiration;
  MetricPrefix := ""; AppendSubscriptionName := false;
  ExportTimestamps := exportTimestamps; StringsAsLabels := stringsAsLabels;
  ServiceRegistrationCfg := None; address := ""; port := 0%Z |}.

(** An event without tags whose two values are strings that are no numbers
    and whose names have the same last path element. *)
Definition statusEvent : EventMsg := {|
  formatters.Name := "sub1"; formatters.Timestamp := 5%Z;
  formatters.Tags := [];
  formatters.Values := [("a/x", A_string "up"); ("b/x", A_string "down")] |}.

(** An event whose one value is a boolean. *)
Definition flagEvent : EventMsg := {|
  formatters.Name := "sub1"; formatters.Timestamp := 5%Z;
  formatters.Tags := [("source", "r1")];
  formatters.Values := [("flag", A_bool true)] |}.

(** The event of the end-to-end scenario of the specification, observed at
    [t]. *)
Definition octetsEvent (t : Z) : EventMsg := {|
  formatters.Name := "iface"; formatters.Timestamp := t;
  formatters.Tags := [("/interfaces/interface/name", "eth0")];
  formatters.Values := [("in-octets", A_int64 1234)] |}.

(** The output after the defaults are set and [octetsEvent 900] is ingested at
    time 1000. *)
Definition runOutput (cfg : Config) : PrometheusOutput :=
  match worker_event 1000 (octetsEvent 900) (setDefaults (newOutput cfg)).1 with
  | Done p => p
  | Panic => newOutput cfg
  end.

(** An event with two tags, visited in descending order of their names, and
    two values. *)
Definition portEvent (t : Z) : EventMsg := {|
  formatters.Name := "port"; formatters.Timestamp := t;
  formatters.Tags := [("/port/name", "p1"); ("/port/card", "c7")];
  formatters.Values := [("out-octets", A_uint64 7); ("in-octets", A_uint64 9)] |}.

(** The output after [portEvent 1500] is ingested at time 2000 as well. *)
Definition runOutput2 (cfg : Config) : PrometheusOutput :=
  match worker_event 2000 (portEvent 1500) (runOutput cfg) with
  | Done p => p
  | Panic => runOutput cfg
  end.

(** The key of the metric of the first value of [portEvent]. *)
Definition portKey : N :=
  fnvWrite offset64 "out_octets:card:c7:name:p1:".

(** What an outcome holds: the entry under a key, the number of entries, the
    slices. *)
Definition entryAt (k : N) (o : outcome PrometheusOutput)
  : outcome (option promMetric) :=
  p ←! o; Done (entries p !! k).

Definition entryCount (o : outcome PrometheusOutput) : outcome nat :=
  p ←! o; Done (size (entries p)).

Definition slicesOf (o : outcome PrometheusOutput)
  : outcome (list (list labelPair)) :=
  p ←! o; Done (slices p).

(** The key of the metric of [octetsEvent]. *)
Definition octetsKey : N :=
  fnvWrite offset64 "in_octets:name:eth0:".

(** The key of the metric of [flagEvent]. *)
Definition flagKey : N :=
  fnvWrite offset64 "flag:source:r1:".

(** A run: the worker has received an event and not yet taken the lock; call
    0 of [Collect] has taken it and has swept. *)
Definition runSystem1 : system :=
  setWorker (WEvent (octetsEvent 900))
    (initSystem (runConfig minute false false)).
Definition runSystem2 : system :=
  setCollectors (<[0%nat := CCalled]> (collectors runSystem1)) runSystem1.
Definition runSystem3 : system :=
  setCollectors (<[0%nat := CLocked]> (collectors runSystem2))
    (setMutex (Some (OCollector 0)) runSystem2).
Definition runSystem4 : system :=
  setCollectors (<[0%nat := CSwept]> (collectors runSystem3))
    (setOut (out runSystem3) runSystem3).

(** The result of a run that ends, [d] for one that does not. *)
Definition orElse {A : Type} (o : outcome A) (d : A) : A :=
  match o with
  | Done a => a
  | Panic => d
  end.

(** A new [dto.Metric]. *)
Definition newMetric : dto.Metric :=
  {| dto.Label := []; dto.Untyped := None; dto.TimestampMs := None |}.

Definition isDone {A : Type} (o : outcome A) : bool :=
  match o with
  | Done _ => true
  | Panic => false
  end.

(** ** Properties *)

#[local] Set Warnings "-clear-no-such-hyp".

(** *** The library functions *)

Example run_fnv_a : fnvWrite offset64 "a" = 0xaf63dc4c8601ec8c%N.
Proof. reflexivity. Qed.

Example run_fnv_foobar : fnvWrite offset64 "foobar" = 0x85944171f73967e8%N.
Proof. reflexivity. Qed.

Example run_Base :
  Base "/interfaces/interface/name/" = "name"
  ∧ Base "///" = "/" ∧ Base "" = ".".
Proof. repeat split; reflexivity. Qed.

(** A run of several bytes outside the class gives one underscore. *)
Example run_ReplaceAllString :
  ReplaceAllString "in-octets" = "in_octets"
  ∧ ReplaceAllString "a..b--" = "a_b_"
  ∧ TrimRight "_" "_a_b__" = "_a_b" ∧ TrimLeft "_" "__a_" = "a_".
Proof. repeat split; reflexivity. Qed.

Example run_split :
  splitLastColon defaultListen = Some ("", "9804")
  ∧ readDecimal "9804" = Some 9804%Z.
Proof. split; reflexivity. Qed.

(** *** Metric identity *)

Lemma ltb_negb_leb (s1 s2 : string) : String.ltb s1 s2 = negb (String.leb s2 s1).
Proof.
  unfold String.ltb, String.leb. rewrite (String.compare_antisym s1 s2).
  by destruct (String.compare s2 s1).
Qed.

Lemma lessName_false (a b : labelPair) :
  lessName b a = false ↔ String.le (Name a) (Name b).
Proof.
  unfold lessName, String.le. rewrite ltb_negb_leb.
  destruct (String.leb (Name a) (Name b)); simpl; intuition (auto; discriminate).
Qed.

Lemma lessName_ordering : TransitiveOrdering lessName.
Proof.
  split.
  - intros a. apply lessName_false. reflexivity.
  - intros a b c Hab Hbc.
    destruct (lessName a c) eqn:Hac; [done|].
    apply lessName_false in Hac.
    destruct (total String.le (Name a) (Name b)) as [Hle|Hle].
    + assert (String.le (Name c) (Name b)) as Hcb by (by etrans).
      apply lessName_false in Hcb. congruence.
    + apply lessName_false in Hle. congruence.
  - intros a b c Hab Hbc. apply lessName_false.
    apply lessName_false in Hab, Hbc. by etrans.
Qed.

Lemma insertSorted_Permutation {A} (less : A → A → bool) x l :
  insertSorted less x l ≡ₚ x :: l.
Proof.
  induction l as [|y l IH]; simpl; [done|].
  destruct (less x y); [done|]. rewrite IH. apply Permutation_swap.
Qed.

Lemma insertSorted_Sorted {A} (less : A → A → bool) x l :
  TransitiveOrdering less →
  Sorted (λ a b, less b a = false) l →
  Sorted (λ a b, less b a = false) (insertSorted less x l).
Proof.
  intros Hord. induction l as [|y l IH]; simpl; intros Hl.
  - by repeat constructor.
  - destruct (less x y) eqn:Hxy.
    + constructor; [done|]. constructor.
      destruct (less y x) eqn:Hyx; [|done].
      pose proof (less_trans less Hord x y x Hxy Hyx) as Hxx.
      by rewrite (less_irrefl less Hord) in Hxx.
    + apply Sorted_inv in Hl as [Hl Hhd]. constructor; [by apply IH|].
      destruct l as [|z l]; simpl; [by constructor|].
      destruct (less x z); constructor; [done|by inversion Hhd].
Qed.

#[local] Instance runLibrary_sort : SortSliceSpec runLibrary.
Proof.
  split; simpl; unfold insertionSort.
  - intros A less l. induction l as [|x l IH]; simpl; [done|].
    by rewrite insertSorted_Permutation, IH.
  - intros A less l Hord. induction l as [|x l IH]; simpl; [constructor|].
    by apply insertSorted_Sorted.
Qed.

#[local] Instance nameOrder_trans : Transitive nameOrder.
Proof.
  intros a b c Hab Hbc. unfold nameOrder in *.
  exact (not_less_trans lessName lessName_ordering c b a Hbc Hab).
Qed.

Lemma NoDup_fmap_elem_inj {A B} (f : A → B) (l : list A) x y :
  NoDup (f <$> l) → x ∈ l → y ∈ l → f x = f y → x = y.
Proof.
  induction l as [|z l IH]; simpl; intros Hnd Hx Hy Hf; [by inversion Hx|].
  apply NoDup_cons in Hnd as [Hz Hnd].
  apply elem_of_cons in Hx as [->|Hx]; apply elem_of_cons in Hy as [->|Hy];
    [done| | |by apply IH].
  - exfalso. apply Hz. rewrite Hf. by apply list_elem_of_fmap_2.
  - exfalso. apply Hz. rewrite <- Hf. by apply list_elem_of_fmap_2.
Qed.

(** A list of labels with pairwise distinct names has one sorted
    arrangement. *)
Lemma sorted_labels_unique (l1 l2 : list labelPair) :
  NoDup (Name <$> l1) → l1 ≡ₚ l2 →
  Sorted nameOrder l1 → Sorted nameOrder l2 → l1 = l2.
Proof.
  intros Hnd Hperm Hs1 Hs2.
  apply (Sorted_unique_strong nameOrder); [|done..].
  intros x1 x2 Hx1 Hx2 H12 H21.
  apply (NoDup_fmap_elem_inj Name l1); [done|done|by rewrite Hperm|].
  apply lessName_false in H12, H21.
  by apply (anti_symm String.le).
Qed.

Section Identity.

Context {L : Library}.

Lemma sortSlice_labels_sorted `{!SortSliceSpec L} (l : list labelPair) :
  Sorted nameOrder (sortSlice labelPair lessName l).
Proof. apply sortSlice_Sorted, lessName_ordering. Qed.

Lemma sortSlice_labels_perm_eq `{!SortSliceSpec L} (l1 l2 : list labelPair) :
  NoDup (Name <$> l1) → l1 ≡ₚ l2 →
  sortSlice labelPair lessName l1 = sortSlice labelPair lessName l2.
Proof.
  intros Hnd Hperm. apply sorted_labels_unique.
  - by rewrite sortSlice_Permutation.
  - by rewrite !sortSlice_Permutation.
  - apply sortSlice_labels_sorted.
  - apply sortSlice_labels_sorted.
Qed.

(** C1. For every metric name and every two label lists that are
    permutations of each other, with pairwise distinct label names,
    [calculateKey] returns the same key for a metric with that name and the
    first list as for a metric with that name and the second list. *)
Theorem calculateKey_permutation `{!SortSliceSpec L}
    (nm : string) (L1 L2 : list labelPair) (p1 p2 : promMetric)
    (h1 h2 : list (list labelPair)) :
  name p1 = nm → name p2 = nm →
  readSlice h1 (labels p1) = L1 → readSlice h2 (labels p2) = L2 →
  L1 ≡ₚ L2 → NoDup (Name <$> L1) →
  fst (calculateKey p1 h1) = fst (calculateKey p2 h2).
Proof.
  intros Hn1 Hn2 Hl1 Hl2 Hperm Hnd. unfold calculateKey.
  rewrite Hn1, Hn2, Hl1, Hl2, <- (Permutation_length Hperm).
  destruct (0 <? length L1)%nat; simpl; [|done].
  by rewrite (sortSlice_labels_perm_eq L1 L2).
Qed.

End Identity.

Lemma calculateKey_permutation_witness :
  let L1 := [LabelPair "b" "2"; LabelPair "a" "1"; LabelPair "c" "3"] in
  let L2 := [LabelPair "c" "3"; LabelPair "b" "2"; LabelPair "a" "1"] in
  let p1 := PromMetric "in_octets" 0%nat None (Some 7%Z) 0%Z in
  let p2 := PromMetric "in_octets" 1%nat (Some 5%Z) (Some 9%Z) 3%Z in
  fst (calculateKey p1 [L1; L2]) = fst (calculateKey p2 [L1; L2]).
Proof.
  intros L1 L2 p1 p2.
  apply (calculateKey_permutation "in_octets" L1 L2 p1 p2); try reflexivity.
  - symmetry. apply (Permutation_cons_append [LabelPair "b" "2"; LabelPair "a" "1"]).
  - by apply (bool_decide_unpack _).
Defined.

(** *** Names *)

Lemma allNameChars_app (s1 s2 : string) :
  allNameChars (s1 +:+ s2) = (allNameChars s1 && allNameChars s2)%bool.
Proof.
  induction s1 as [|c s1 IH]; simpl; [done|].
  rewrite IH. by destruct (nameChar c).
Qed.

Lemma allNameChars_replaceRuns (b : bool) (s : string) :
  allNameChars (replaceRuns b s) = true.
Proof.
  revert b. induction s as [|c s IH]; intros b; simpl; [done|].
  destruct (nameChar c) eqn:Hc; simpl.
  - by rewrite Hc, IH.
  - destruct b; [apply IH|]. simpl. apply IH.
Qed.

Lemma allNameChars_TrimLeft (c : ascii) (s : string) :
  allNameChars s = true → allNameChars (TrimLeft c s) = true.
Proof.
  induction s as [|a s IH]; simpl; [done|].
  intros [Ha Hs]%andb_prop. destruct (Ascii.eqb a c); [by apply IH|].
  simpl. by rewrite Ha, Hs.
Qed.

Lemma allNameChars_TrimRight (c : ascii) (s : string) :
  allNameChars s = true → allNameChars (TrimRight c s) = true.
Proof.
  induction s as [|a s IH]; simpl; [done|].
  intros [Ha Hs]%andb_prop. specialize (IH Hs).
  destruct (TrimRight c s) as [|b r].
  - destruct (Ascii.eqb a c); simpl; [done|]. by rewrite Ha.
  - change (allNameChars (String a (String b r)))
      with (nameChar a && allNameChars (String b r))%bool.
    by rewrite Ha, IH.
Qed.

Section Naming.

Context {L : Library}.

Lemma metricName_allNameChars (cfg : Config) (measName valueName : string) :
  allNameChars (metricName cfg measName valueName) = true.
Proof.
  unfold metricName, ReplaceAllString.
  destruct (negb _), (AppendSubscriptionName cfg);
    rewrite ?allNameChars_app, ?allNameChars_replaceRuns,
      ?allNameChars_TrimLeft, ?allNameChars_TrimRight
      by apply allNameChars_replaceRuns; done.
Qed.

(** C7. The tag name [a/b.c] yields the label name [b_c]; with the prefix
    and the appending of the subscription name off, [metricName] maps the
    value name [99bottles] to itself and [.internal] to [internal]; every
    result of [metricName] consists of bytes of [a-zA-Z0-9_]. *)
Theorem name_sanitization :
  labelName "a/b.c" = "b_c"
  ∧ (∀ (cfg : Config) (n : string) (t : Z) (v : string),
       getLabels cfg
         {| formatters.Name := n; formatters.Timestamp := t;
            formatters.Tags := [("a/b.c", v)]; formatters.Values := [] |}
       = [LabelPair "b_c" v])
  ∧ (∀ (cfg : Config) (measName : string),
       metricName (plainNames cfg) measName "99bottles" = "99bottles"
       ∧ metricName (plainNames cfg) measName ".internal" = "internal")
  ∧ (∀ (cfg : Config) (measName valueName : string),
       allNameChars (metricName cfg measName valueName) = true).
Proof.
  split; [reflexivity|]. split; [|split].
  - intros cfg n t v. unfold getLabels. simpl.
    by destruct (StringsAsLabels cfg).
  - intros cfg measName. split; reflexivity.
  - apply metricName_allNameChars.
Qed.

End Naming.

(** *** Label projection *)

Section Labels.

Context {L : Library}.

(** The loop over the tags keeps the names of [labels] pairwise distinct and
    recorded in [addedLabels]. *)
Lemma tagStep_invariant (tags : list (string * string))
    (st : list labelPair * gset string) :
  NoDup (Name <$> st.1) → (∀ l, l ∈ st.1 → Name l ∈ st.2) →
  NoDup (Name <$> (foldl tagStep st tags).1)
  ∧ (∀ l, l ∈ (foldl tagStep st tags).1 → Name l ∈ (foldl tagStep st tags).2).
Proof.
  revert st. induction tags as [|[k v] tags IH]; intros [labels added]; simpl;
    intros Hnd Hin; [done|].
  apply IH; destruct (decide (labelName k ∈ added)) as [Hk|Hk]; simpl; try done.
  - rewrite fmap_app. simpl. apply NoDup_app. split; [done|]. split.
    + intros x Hx [->|[]%elem_of_nil]%elem_of_cons.
      apply list_elem_of_fmap in Hx as (l & Hl & Hx). apply Hk.
      rewrite Hl. by apply Hin.
    + apply NoDup_singleton.
  - intros l [Hl|Hl]%elem_of_app.
    + apply elem_of_union_r. by apply Hin.
    + apply list_elem_of_singleton in Hl as ->. simpl.
      apply elem_of_union_l. by apply elem_of_singleton.
Qed.

(** Without strings as labels, the names of the labels are pairwise
    distinct. *)
Lemma getLabels_tags_NoDup (cfg : Config) (ev : EventMsg) :
  StringsAsLabels cfg = false → NoDup (Name <$> getLabels cfg ev).
Proof.
  intros Hs. unfold getLabels. rewrite Hs. simpl.
  apply tagStep_invariant; simpl; [constructor|]. by intros l ?%elem_of_nil.
Qed.

End Labels.

(** C3, at an event the code mishandles.  With strings as labels, the loop
    over the values tests [addedLabels] and never records a name in it: two
    string values whose names end in the same path element give two labels of
    the same name. *)
Theorem getLabels_duplicate_names :
  getLabels (runConfig 0 false true) statusEvent
  = [LabelPair "x" "up"; LabelPair "x" "down"]
  ∧ ¬ NoDup (Name <$> getLabels (runConfig 0 false true) statusEvent).
Proof.
  split; [reflexivity|].
  change (¬ NoDup ["x"; "x"]). intros Hnd.
  apply NoDup_cons in Hnd as [Hx _]. apply Hx. by left.
Qed.

(** *** Values of unsupported kinds *)

Section Unsupported.

Context {L : Library}.

(** C5, amended.  A value whose kind is outside the supported scalar set
    makes [getFloat] fail with the incompatible-type error.  Without strings
    as labels the ingestion loop drops it: the output is unchanged.  With
    strings as labels the loop upserts a sample of value [1.0] for it. *)
Theorem unsupported_value_ingestion (now : Time) (ev : EventMsg)
    (labels : sliceRef) (vName : string) (v : anyValue)
    (p : PrometheusOutput) :
  supportedKind v = false →
  snd (getFloat v) = Some ErrIncompatible
  ∧ (StringsAsLabels (Cfg p) = false →
     worker_value now ev labels (vName, v) p = Done p)
  ∧ (StringsAsLabels (Cfg p) = true →
     worker_value now ev labels (vName, v) p
     = upsert {| name := metricName (Cfg p) (formatters.Name ev) vName;
                 labels := labels;
                 value := one;
                 addedAt := now;
                 time := if ExportTimestamps (Cfg p)
                         then Some (Unix0 (formatters.Timestamp ev))
                         else None |} p).
Proof.
  intros Hv.
  destruct v; try discriminate Hv; (split; [reflexivity|]);
    split; intros Hs; unfold worker_value; simpl; by rewrite Hs.
Qed.

End Unsupported.

Lemma unsupported_value_ingestion_witness :
  snd (getFloat (A_bool true)) = Some ErrIncompatible
  ∧ (StringsAsLabels (Cfg (newOutput (runConfig 0 true false))) = false →
     worker_value 100%Z flagEvent 0%nat ("flag", A_bool true)
       (newOutput (runConfig 0 true false))
     = Done (newOutput (runConfig 0 true false)))
  ∧ (StringsAsLabels (Cfg (newOutput (runConfig 0 true false))) = true →
     worker_value 100%Z flagEvent 0%nat ("flag", A_bool true)
       (newOutput (runConfig 0 true false))
     = upsert {| name := "flag"; labels := 0%nat; value := Some 1%Z;
                 addedAt := 100%Z; time := Some 5%Z |}
         (newOutput (runConfig 0 true false))).
Proof.
  apply (unsupported_value_ingestion 100%Z flagEvent 0%nat "flag" (A_bool true)
           (newOutput (runConfig 0 true false))).
  reflexivity.
Defined.

(** C5, as stated, fails: with strings as labels, the boolean value of
    [flagEvent] leaves a metric [flag] of value [1.0] in the entries. *)
Lemma unsupported_value_stored :
  supportedKind (A_bool true : anyValue) = false
  ∧ entryAt flagKey
      (worker_event 100 flagEvent (newOutput (runConfig 0 false true)))
    = Done (Some {| name := "flag"; labels := 0%nat; time := None;
                    value := Some 1%Z; addedAt := 100%Z |}).
Proof. split; [reflexivity|]. vm_compute. reflexivity. Qed.

(** *** Eviction *)

Section Eviction.

Context {L : Library}.

Lemma expireMetrics_disabled (now : Time) (p : PrometheusOutput) :
  (Expiration (Cfg p) ≤ 0)%Z → expireMetrics now p = Done p.
Proof.
  intros Hle. unfold expireMetrics.
  by destruct (Z.leb_spec (Expiration (Cfg p)) 0); [|lia].
Qed.

Lemma setDefaults_Expiration (p : PrometheusOutput) :
  Expiration (Cfg (setDefaults p).1)
  = if (Expiration (Cfg p) =? 0)%Z then defaultExpiration
    else Expiration (Cfg p).
Proof.
  unfold setDefaults.
  destruct (SplitHostPort _) as [[host prt]|]; [|done].
  by destruct (Atoi prt).
Qed.

Lemma expireEntry_comm (cfg : Config) (expiry : Time) (i j : N)
    (x y : promMetric) (acc : outcome (gmap N promMetric)) :
  expireEntry cfg expiry i x (expireEntry cfg expiry j y acc)
  = expireEntry cfg expiry j y (expireEntry cfg expiry i x acc).
Proof.
  destruct acc as [a|]; [|done]. unfold expireEntry. simpl.
  destruct (ExportTimestamps cfg).
  - destruct (time x) as [tx|], (time y) as [ty|]; simpl; try done.
    + destruct (Before tx expiry), (Before ty expiry); simpl;
        by rewrite ?(delete_delete _ i j).
    + by destruct (Before tx expiry).
    + by destruct (Before ty expiry).
  - destruct (Before (addedAt x) expiry), (Before (addedAt y) expiry); simpl;
      by rewrite ?(delete_delete _ i j).
Qed.

(** The sweep does not depend on the order in which the loop visits the
    entries. *)
Lemma expireEntry_visit_order (cfg : Config) (expiry : Time)
    (acc : outcome (gmap N promMetric)) (m : gmap N promMetric)
    (visit : list (N * promMetric)) :
  visit ≡ₚ map_to_list m →
  foldr (uncurry (expireEntry cfg expiry)) acc visit
  = map_fold (expireEntry cfg expiry) acc m.
Proof.
  intros Hperm. rewrite map_fold_foldr.
  apply (foldr_permutation (=) (uncurry (expireEntry cfg expiry)) acc);
    [|done].
  intros j1 [k1 e1] j2 [k2 e2] b _ _ _. apply expireEntry_comm.
Qed.

(** C4, amended.  When the configured expiration is negative, [setDefaults]
    keeps it, and under the resulting configuration no sweep removes an
    entry, whatever the time: [expireMetrics] and [expireMetricsPeriodic]
    leave the output as it is, and [Collect] sends every entry. *)
Theorem negative_expiration_disables_eviction (p : PrometheusOutput) :
  (Expiration (Cfg p) < 0)%Z →
  Expiration (Cfg (setDefaults p).1) = Expiration (Cfg p)
  ∧ ∀ q : PrometheusOutput,
      Cfg q = Cfg (setDefaults p).1 →
      (∀ now, expireMetrics now q = Done q)
      ∧ (∀ ticks, expireMetricsPeriodic ticks q = Done q)
      ∧ (∀ now, Collect now q = Done (snd <$> map_to_list (entries q), q)).
Proof.
  intros Hneg.
  assert (Expiration (Cfg (setDefaults p).1) = Expiration (Cfg p)) as Hkeep.
  { rewrite setDefaults_Expiration.
    by destruct (Z.eqb_spec (Expiration (Cfg p)) 0); [lia|]. }
  split; [done|]. intros q Hq.
  assert (Expiration (Cfg q) ≤ 0)%Z as Hle by (rewrite Hq, Hkeep; lia).
  split; [|split].
  - intros now. by apply expireMetrics_disabled.
  - intros ticks. unfold expireMetricsPeriodic.
    by destruct (Z.leb_spec (Expiration (Cfg q)) 0); [|lia].
  - intros now. unfold Collect. by rewrite expireMetrics_disabled.
Qed.

(** The entries that a sweep with the given expiry removes. *)
Lemma expireEntry_fold (cfg : Config) (expiry : Time)
    (a m : gmap N promMetric) :
  (∀ k e, m !! k = Some e → is_Some (ageAnchor cfg e)) →
  ∃ a', map_fold (expireEntry cfg expiry) (Done a) m = Done a'
    ∧ ∀ k, a' !! k =
           match m !! k with
           | Some e =>
               match ageAnchor cfg e with
               | Some t => if Before t expiry then None else a !! k
               | None => a !! k
               end
           | None => a !! k
           end.
Proof.
  apply (map_fold_weak_ind (λ r m,
    (∀ k e, m !! k = Some e → is_Some (ageAnchor cfg e)) →
    ∃ a', r = Done a' ∧ ∀ k, a' !! k =
           match m !! k with
           | Some e =>
               match ageAnchor cfg e with
               | Some t => if Before t expiry then None else a !! k
               | None => a !! k
               end
           | None => a !! k
           end)).
  - intros _. exists a. split; [done|]. intros k. by rewrite lookup_empty.
  - intros i x m' r Hi IH Hsafe.
    destruct IH as (a' & -> & Ha').
    { intros k e Hk. apply (Hsafe k). rewrite lookup_insert_ne; [done|].
      intros ->. congruence. }
    destruct (Hsafe i x (lookup_insert_eq _ _ _)) as [t Ht].
    assert (expireEntry cfg expiry i x (Done a')
            = Done (if Before t expiry then delete i a' else a')) as ->.
    { unfold expireEntry, ageAnchor in *. simpl.
      destruct (ExportTimestamps cfg).
      - rewrite Ht. by destruct (Before t expiry).
      - injection Ht as ->. by destruct (Before _ expiry). }
    eexists. split; [done|]. intros k.
    destruct (decide (i = k)) as [->|Hne].
    + rewrite lookup_insert_eq, Ht.
      destruct (Before t expiry); [by rewrite lookup_delete_eq|].
      by rewrite Ha', Hi.
    + rewrite lookup_insert_ne by done.
      destruct (Before t expiry); [rewrite lookup_delete_ne by done|];
        apply Ha'.
Qed.

(** C6. With a positive expiration, on entries that have their age anchor,
    a sweep at [now] keeps exactly the entries whose anchor is not before
    [now] minus the expiration.  In particular, without exported timestamps
    an entry ingested at [t0] survives a sweep at [t0 + T - ε] and is
    removed by a sweep at [t0 + T + ε]. *)
Theorem expireMetrics_postcondition (p : PrometheusOutput) :
  (0 < Expiration (Cfg p))%Z →
  (∀ k e, entries p !! k = Some e → is_Some (ageAnchor (Cfg p) e)) →
  (∀ now, ∃ p',
      expireMetrics now p = Done p'
      ∧ Cfg p' = Cfg p ∧ slices p' = slices p
      ∧ ∀ k e, entries p' !! k = Some e ↔
               entries p !! k = Some e
               ∧ ∃ t, ageAnchor (Cfg p) e = Some t
                      ∧ ¬ (t < now - Expiration (Cfg p))%Z)
  ∧ (∀ k e (ε : Duration),
      ExportTimestamps (Cfg p) = false → entries p !! k = Some e →
      (0 < ε)%Z →
      (∃ p', expireMetrics (addedAt e + Expiration (Cfg p) - ε)%Z p = Done p'
             ∧ entries p' !! k = Some e)
      ∧ (∃ p', expireMetrics (addedAt e + Expiration (Cfg p) + ε)%Z p = Done p'
               ∧ entries p' !! k = None)).
Proof.
  intros Hpos Hsafe.
  assert (∀ now, ∃ p',
      expireMetrics now p = Done p'
      ∧ Cfg p' = Cfg p ∧ slices p' = slices p
      ∧ ∀ k, entries p' !! k =
             match entries p !! k with
             | Some e =>
                 match ageAnchor (Cfg p) e with
                 | Some t =>
                     if (t <? now - Expiration (Cfg p))%Z then None
                     else Some e
                 | None => Some e
                 end
             | None => None
             end) as Hsweep.
  { intros now. unfold expireMetrics.
    destruct (Z.leb_spec (Expiration (Cfg p)) 0); [lia|].
    destruct (expireEntry_fold (Cfg p) (Add now (- Expiration (Cfg p)))
                (entries p) (entries p) Hsafe) as (a' & -> & Ha').
    eexists. split; [done|]. split; [done|]. split; [done|].
    intros k. simpl. rewrite Ha'. unfold Before, Add.
    replace (now + - Expiration (Cfg p))%Z with (now - Expiration (Cfg p))%Z
      by lia.
    destruct (entries p !! k) as [e|]; [|done].
    destruct (ageAnchor (Cfg p) e); [|done]. by destruct (_ <? _)%Z. }
  split.
  - intros now. destruct (Hsweep now) as (p' & Hrun & Hcfg & Hsl & Hp').
    exists p'. split; [done|]. split; [done|]. split; [done|].
    intros k e. rewrite Hp'. split.
    + destruct (entries p !! k) as [e0|] eqn:Hk; [|done].
      destruct (Hsafe k e0 Hk) as [t Ht]. rewrite Ht.
      destruct (Z.ltb_spec t (now - Expiration (Cfg p))); [done|].
      intros [= ->]. split; [done|]. exists t. split; [done|lia].
    + intros [-> (t & -> & Hge)].
      by destruct (Z.ltb_spec t (now - Expiration (Cfg p))).
  - intros k e ε Hts Hk Hε.
    assert (ageAnchor (Cfg p) e = Some (addedAt e)) as Hanchor
      by (unfold ageAnchor; by rewrite Hts).
    split.
    + destruct (Hsweep (addedAt e + Expiration (Cfg p) - ε)%Z)
        as (p' & Hrun & _ & _ & Hp').
      exists p'. split; [done|]. rewrite Hp', Hk, Hanchor.
      by destruct (Z.ltb_spec (addedAt e)
           (addedAt e + Expiration (Cfg p) - ε - Expiration (Cfg p))); [lia|].
    + destruct (Hsweep (addedAt e + Expiration (Cfg p) + ε)%Z)
        as (p' & Hrun & _ & _ & Hp').
      exists p'. split; [done|]. rewrite Hp', Hk, Hanchor.
      by destruct (Z.ltb_spec (addedAt e)
           (addedAt e + Expiration (Cfg p) + ε - Expiration (Cfg p))); [|lia].
Qed.

End Eviction.

Example run_octetsEvent :
  entries (runOutput (runConfig minute true false)) !! octetsKey
  = Some {| name := "in_octets"; labels := 0%nat; time := Some 900%Z;
            value := Some 1234%Z; addedAt := 1000%Z |}
  ∧ slices (runOutput (runConfig minute true false))
    = [[LabelPair "name" "eth0"]]
  ∧ size (entries (runOutput (runConfig minute true false))) = 1%nat.
Proof. repeat split; vm_compute; reflexivity. Qed.

Lemma negative_expiration_disables_eviction_witness :
  Expiration (Cfg (setDefaults (newOutput (runConfig (-5) false false))).1)
  = (-5)%Z
  ∧ expireMetrics 1000000000000000 (runOutput (runConfig (-5) false false))
    = Done (runOutput (runConfig (-5) false false)).
Proof.
  destruct (negative_expiration_disables_eviction
              (newOutput (runConfig (-5) false false))) as [Hkeep Hq];
    [reflexivity|].
  split; [exact Hkeep|].
  apply (Hq (runOutput (runConfig (-5) false false))). reflexivity.
Defined.

(** C4, as stated, fails for the expiration zero: [setDefaults] replaces it by
    one minute, and a sweep two minutes after the ingestion removes the
    entry. *)
Lemma zero_expiration_evicts :
  (Expiration (Cfg (newOutput (runConfig 0 false false))) ≤ 0)%Z
  ∧ (setDefaults (newOutput (runConfig 0 false false))).2 = None
  ∧ Expiration (Cfg (setDefaults (newOutput (runConfig 0 false false))).1)
    = minute
  ∧ entries (runOutput (runConfig 0 false false)) !! octetsKey
    = Some {| name := "in_octets"; labels := 0%nat; time := None;
              value := Some 1234%Z; addedAt := 1000%Z |}
  ∧ entryAt octetsKey
      (expireMetrics (1000 + 2 * minute) (runOutput (runConfig 0 false false)))
    = Done None.
Proof.
  split; [done|]. split; [reflexivity|]. split; [reflexivity|].
  split; vm_compute; reflexivity.
Qed.

Lemma expireMetrics_postcondition_witness :
  (∃ p', expireMetrics (1000 + minute - 1)
           (runOutput (runConfig minute false false)) = Done p'
         ∧ is_Some (entries p' !! octetsKey))
  ∧ (∃ p', expireMetrics (1000 + minute + 1)
             (runOutput (runConfig minute false false)) = Done p'
           ∧ entries p' !! octetsKey = None).
Proof.
  destruct (expireMetrics_postcondition
              (runOutput (runConfig minute false false))) as [_ Hsweep].
  - reflexivity.
  - intros k e _. eexists. reflexivity.
  - destruct (Hsweep octetsKey
                (@PromMetric runLibrary "in_octets" 0%nat None
                   (Some 1234%Z) 1000%Z) 1%Z)
      as [(p1 & H1 & Hk1) (p2 & H2 & Hk2)];
      [reflexivity|vm_compute; reflexivity|reflexivity|].
    split; [exists p1|exists p2]; (split; [assumption|]); [|assumption].
    rewrite Hk1. eexists. reflexivity.
Defined.

(** *** Upsert *)

Section Upsert.

Context {L : Library}.


(** The in-place sort touches the slice of the metric only. *)
Lemma calculateKey_other_slice (p : promMetric) (h : list (list labelPair))
    (r : sliceRef) :
  r ≠ labels p → readSlice (calculateKey p h).2 r = readSlice h r.
Proof.
  intros Hr. unfold calculateKey, readSlice.
  destruct (0 <? length _)%nat; simpl; [|done].
  by rewrite list_lookup_insert_ne.
Qed.

Lemma upsert_unfold (pm : promMetric) (p : PrometheusOutput) :
  upsert pm p =
  let key := (calculateKey pm (slices p)).1 in
  let q := withSlices (calculateKey pm (slices p)).2 p in
  match entries p !! key, time pm with
  | Some e, Some t =>
      match time e with
      | None => Panic
      | Some te =>
          if Before te t then Done (withEntries (<[key := pm]> (entries p)) q)
          else Done q
      end
  | _, _ => Done (withEntries (<[key := pm]> (entries p)) q)
  end.
Proof. unfold upsert. by destruct (calculateKey pm (slices p)). Qed.





End Upsert.

(** The same measurement observed at 100 and at 200, ingested in either
    order: the entry keeps the observation of 200. *)
Example run_two_events_either_order :
  entryAt octetsKey
    (p ←! worker_event 1000 (octetsEvent 100)
            (newOutput (runConfig minute true false));
     worker_event 1001 (octetsEvent 200) p)
  = Done (Some {| name := "in_octets"; labels := 1%nat; time := Some 200%Z;
                  value := Some 1234%Z; addedAt := 1001%Z |})
  ∧ entryAt octetsKey
      (p ←! worker_event 1000 (octetsEvent 200)
              (newOutput (runConfig minute true false));
       worker_event 1001 (octetsEvent 100) p)
    = Done (Some {| name := "in_octets"; labels := 0%nat; time := Some 200%Z;
                    value := Some 1234%Z; addedAt := 1000%Z |}).
Proof. split; vm_compute; reflexivity. Qed.


(** *** The timestamps of the entries *)

Section Timestamps.

Context {L : Library}.

Lemma upsert_timestamped (pm : promMetric) (p : PrometheusOutput) :
  timestamped p →
  (is_Some (time pm) ↔ ExportTimestamps (Cfg p) = true) →
  ∃ p', upsert pm p = Done p' ∧ Cfg p' = Cfg p ∧ timestamped p'.
Proof.
  intros Hinv Hpm. rewrite upsert_unfold. simpl.
  set (k := (calculateKey pm (slices p)).1).
  set (h := (calculateKey pm (slices p)).2).
  assert (timestamped (withEntries (<[k:=pm]> (entries p)) (withSlices h p)))
    as Hins.
  { intros k' e'. simpl. intros [[-> ->]|[_ Hk']]%lookup_insert_Some; [done|].
    by apply (Hinv k'). }
  assert (timestamped (withSlices h p)) as Hkeep by done.
  destruct (entries p !! k) as [e|] eqn:Hk; [|by eexists].
  destruct (time pm) as [t|] eqn:Ht; [|by eexists].
  destruct (time e) as [te|] eqn:Hte.
  - destruct (Before te t); by eexists.
  - exfalso. assert (is_Some (time e)) as [? ?]; [|congruence].
    apply (Hinv k e Hk). apply Hpm. by eexists.
Qed.

Lemma worker_value_timestamped (now : Time) (ev : EventMsg) (r : sliceRef)
    (kv : string * anyValue) (p : PrometheusOutput) :
  timestamped p →
  ∃ p', worker_value now ev r kv p = Done p' ∧ Cfg p' = Cfg p ∧ timestamped p'.
Proof.
  intros Hinv. unfold worker_value. destruct kv as [vName val].
  destruct (getFloat val) as [v err].
  destruct (bool_decide (err ≠ None) && negb (StringsAsLabels (Cfg p)));
    [by eexists|].
  apply upsert_timestamped; [done|]. simpl.
  destruct (ExportTimestamps (Cfg p)); split; intros H;
    first [done | by eexists | by destruct H as [? ?]].
Qed.

Lemma worker_values_timestamped (now : Time) (ev : EventMsg) (r : sliceRef)
    (vals : list (string * anyValue)) (p : PrometheusOutput) :
  timestamped p →
  ∃ p', foldl (λ acc kv, p ←! acc; worker_value now ev r kv p) (Done p) vals
        = Done p'
        ∧ Cfg p' = Cfg p ∧ timestamped p'.
Proof.
  revert p. induction vals as [|kv vals IH]; intros p Hinv; simpl.
  - by eexists.
  - destruct (worker_value_timestamped now ev r kv p Hinv)
      as (q & -> & Hcfg & Hq).
    destruct (IH q Hq) as (p' & -> & Hcfg' & Hp').
    eexists. split; [done|]. split; [congruence|done].
Qed.

Lemma worker_event_timestamped (now : Time) (ev : EventMsg)
    (p : PrometheusOutput) :
  timestamped p →
  ∃ p', worker_event now ev p = Done p' ∧ Cfg p' = Cfg p ∧ timestamped p'.
Proof.
  intros Hinv. unfold worker_event.
  by apply (worker_values_timestamped now ev (length (slices p))
              (formatters.Values ev)
              (withSlices (slices p ++ [getLabels (Cfg p) ev]) p)).
Qed.

Lemma timestamped_ageAnchor (p : PrometheusOutput) :
  timestamped p →
  ∀ k e, entries p !! k = Some e → is_Some (ageAnchor (Cfg p) e).
Proof.
  intros Hinv k e Hk. unfold ageAnchor.
  destruct (ExportTimestamps (Cfg p)) eqn:Hts; [|by eexists].
  by apply (Hinv k e Hk).
Qed.

(** A sweep only removes entries. *)
Lemma expireMetrics_subset (now : Time) (p p' : PrometheusOutput) :
  expireMetrics now p = Done p' →
  Cfg p' = Cfg p ∧ slices p' = slices p
  ∧ ∀ k e, entries p' !! k = Some e → entries p !! k = Some e.
Proof.
  unfold expireMetrics. destruct (_ <=? _)%Z; [by intros [= <-]|].
  generalize (Add now (- Expiration (Cfg p))). intros expiry Hrun.
  assert (∀ a', map_fold (expireEntry (Cfg p) expiry) (Done (entries p))
                  (entries p) = Done a' →
                ∀ k e, a' !! k = Some e → entries p !! k = Some e) as Hsub.
  { apply (map_fold_weak_ind
      (λ r (_ : gmap N promMetric),
         ∀ a', r = Done a' →
               ∀ k e, a' !! k = Some e → entries p !! k = Some e)).
    - by intros a [= <-].
    - intros i x m r _ IH a. destruct r as [b|]; [|done]. simpl.
      assert (∀ c : bool, (if c then Done (delete i b) else Done b) = Done a →
                   ∀ k e, a !! k = Some e → entries p !! k = Some e) as Hcase.
      { intros [] [= <-] k e; [|by apply IH].
        intros [_ Hk]%lookup_delete_Some. by apply (IH b). }
      destruct (ExportTimestamps (Cfg p)); [|apply Hcase].
      destruct (time x); [apply Hcase|done]. }
  destruct (map_fold _ _ (entries p)) as [a'|]; [|done].
  simpl in Hrun. injection Hrun as <-.
  split; [done|]. split; [done|]. simpl. by apply Hsub.
Qed.

Lemma expireMetrics_timestamped (now : Time) (p : PrometheusOutput) :
  timestamped p →
  ∃ p', expireMetrics now p = Done p' ∧ Cfg p' = Cfg p ∧ timestamped p'.
Proof.
  intros Hinv.
  assert (∃ p', expireMetrics now p = Done p') as [p' Hrun].
  { unfold expireMetrics. destruct (_ <=? _)%Z; [by eexists|].
    destruct (expireEntry_fold (Cfg p) (Add now (- Expiration (Cfg p)))
                (entries p) (entries p) (timestamped_ageAnchor p Hinv))
      as (a' & -> & _).
    by eexists. }
  exists p'. split; [done|].
  destruct (expireMetrics_subset now p p' Hrun) as (Hcfg & _ & Hsub).
  split; [done|]. intros k e Hk. rewrite Hcfg. apply (Hinv k e). by apply Hsub.
Qed.

Lemma reachable_timestamped (cfg : Config) (p : PrometheusOutput) :
  reachable cfg p → Cfg p = cfg ∧ timestamped p.
Proof.
  induction 1 as [|p p' now ev _ [Hcfg Hinv] Hrun|p p' now _ [Hcfg Hinv] Hrun].
  - split; [done|]. intros k e. simpl. by rewrite lookup_empty.
  - destruct (worker_event_timestamped now ev p Hinv) as (q & Hq & Hcfg' & Hq').
    rewrite Hrun in Hq. injection Hq as <-. split; [congruence|done].
  - destruct (expireMetrics_timestamped now p Hinv) as (q & Hq & Hcfg' & Hq').
    rewrite Hrun in Hq. injection Hq as <-. split; [congruence|done].
Qed.

(** C9. Under a fixed configuration, every entry of a reachable output has
    a timestamp exactly when timestamps are exported; hence ingesting an
    event and sweeping, in [expireMetrics] or in [Collect], end without a
    nil dereference, and they lead to reachable outputs, where the same
    holds. *)
Theorem timestamp_invariant (cfg : Config) (p : PrometheusOutput) :
  reachable cfg p →
  Cfg p = cfg
  ∧ (∀ k e, entries p !! k = Some e →
            (is_Some (time e) ↔ ExportTimestamps cfg = true))
  ∧ (∀ now ev, ∃ p', worker_event now ev p = Done p' ∧ reachable cfg p')
  ∧ (∀ now, ∃ p', expireMetrics now p = Done p' ∧ reachable cfg p')
  ∧ (∀ now, ∃ p', Collect now p = Done (snd <$> map_to_list (entries p'), p')
                  ∧ reachable cfg p').
Proof.
  intros Hreach. destruct (reachable_timestamped cfg p Hreach) as [Hcfg Hinv].
  split; [done|]. split; [by rewrite <- Hcfg|].
  assert (∀ now, ∃ p', expireMetrics now p = Done p' ∧ reachable cfg p')
    as Hsweep.
  { intros now.
    destruct (expireMetrics_timestamped now p Hinv) as (p' & Hrun & _).
    exists p'. split; [done|]. by eapply reachable_expire. }
  split; [|split; [done|]].
  - intros now ev.
    destruct (worker_event_timestamped now ev p Hinv) as (p' & Hrun & _).
    exists p'. split; [done|]. by eapply reachable_event.
  - intros now. destruct (Hsweep now) as (p' & Hrun & Hp').
    exists p'. split; [|done]. unfold Collect. by rewrite Hrun.
Qed.

End Timestamps.

Lemma runOutput_reachable (cfg : Config) :
  reachable (Cfg (setDefaults (newOutput cfg)).1) (runOutput cfg).
Proof.
  unfold runOutput.
  destruct (worker_event 1000 (octetsEvent 900) (setDefaults (newOutput cfg)).1)
    as [p|] eqn:Hrun.
  - eapply reachable_event; [|exact Hrun].
    replace (setDefaults (newOutput cfg)).1
      with (newOutput (Cfg (setDefaults (newOutput cfg)).1)); [constructor|].
    unfold setDefaults. by repeat case_match.
  - destruct (worker_event_timestamped 1000 (octetsEvent 900)
                (setDefaults (newOutput cfg)).1) as (q & Hq & _).
    + intros k e. unfold setDefaults. repeat case_match; simpl;
        by rewrite lookup_empty.
    + congruence.
Qed.

(** Entries without timestamps under a configuration that exports them are
    not reachable: there the comparison of [upsert] and the sweep end in a
    nil dereference. *)
Example run_untimestamped_entry_panics :
  worker_event 2000 (octetsEvent 1500)
    (withCfg (runConfig minute true false)
       (runOutput (runConfig minute false false))) = Panic
  ∧ expireMetrics 2000
      (withCfg (runConfig minute true false)
         (runOutput (runConfig minute false false))) = Panic.
Proof. split; vm_compute; reflexivity. Qed.

Lemma timestamp_invariant_witness :
  ∃ p', worker_event 2000 (octetsEvent 800) (runOutput (runConfig minute true false))
        = Done p'
        ∧ reachable (Cfg (setDefaults (newOutput (runConfig minute true false))).1) p'.
Proof.
  destruct (timestamp_invariant
              (Cfg (setDefaults (newOutput (runConfig minute true false))).1)
              (runOutput (runConfig minute true false))) as (_ & _ & Hev & _).
  - apply runOutput_reachable.
  - apply Hev.
Defined.

(** *** The order of the labels of the entries *)

Section LabelOrder.

Context {L : Library} `{!SortSliceSpec L}.

Lemma calculateKey_length (pm : promMetric) (h : list (list labelPair)) :
  length (calculateKey pm h).2 = length h.
Proof.
  unfold calculateKey. destruct (0 <? length _)%nat; simpl; [|done].
  apply length_insert.
Qed.

(** After [calculateKey], the slice of the metric is sorted. *)
Lemma calculateKey_sorts (pm : promMetric) (h : list (list labelPair)) :
  Sorted nameOrder (readSlice (calculateKey pm h).2 (labels pm)).
Proof.
  unfold calculateKey.
  destruct (Nat.ltb_spec 0 (length (readSlice h (labels pm)))) as [Hlen|Hlen];
    simpl.
  - unfold readSlice in *.
    destruct (h !! labels pm) as [ls|] eqn:Hr; [|simpl in Hlen; lia].
    rewrite list_lookup_insert_eq by (by eapply lookup_lt_Some).
    simpl. apply sortSlice_labels_sorted.
  - destruct (readSlice h (labels pm)); [constructor|simpl in Hlen; lia].
Qed.

Lemma calculateKey_keeps_sorted (pm : promMetric) (h : list (list labelPair))
    (r : sliceRef) :
  Sorted nameOrder (readSlice h r) →
  Sorted nameOrder (readSlice (calculateKey pm h).2 r).
Proof.
  intros Hr. destruct (decide (r = labels pm)) as [->|Hne].
  - apply calculateKey_sorts.
  - by rewrite calculateKey_other_slice.
Qed.

Lemma upsert_labelsSorted (pm : promMetric) (p p' : PrometheusOutput) :
  labelsSorted p → (labels pm < length (slices p))%nat →
  upsert pm p = Done p' →
  labelsSorted p' ∧ length (slices p') = length (slices p).
Proof.
  intros Hinv Hpm. rewrite upsert_unfold. simpl.
  set (k := (calculateKey pm (slices p)).1).
  set (h := (calculateKey pm (slices p)).2).
  assert (length h = length (slices p)) as Hlen by apply calculateKey_length.
  assert (labelsSorted (withSlices h p)) as Hkeep.
  { intros k' e' Hk'. simpl in *. destruct (Hinv k' e' Hk') as [Hlt Hs].
    split; [lia|]. by apply calculateKey_keeps_sorted. }
  assert (labelsSorted (withEntries (<[k:=pm]> (entries p)) (withSlices h p)))
    as Hins.
  { intros k' e'. simpl.
    intros [[-> ->]|[_ Hk']]%lookup_insert_Some; [|by apply (Hkeep k')].
    split; [lia|]. apply calculateKey_sorts. }
  destruct (entries p !! k) as [e|]; [|by intros [= <-]].
  destruct (time pm) as [t|]; [|by intros [= <-]].
  destruct (time e) as [te|]; [|done].
  destruct (Before te t); by intros [= <-].
Qed.

Lemma worker_value_labelsSorted (now : Time) (ev : EventMsg) (r : sliceRef)
    (kv : string * anyValue) (p p' : PrometheusOutput) :
  labelsSorted p → (r < length (slices p))%nat →
  worker_value now ev r kv p = Done p' →
  labelsSorted p' ∧ length (slices p') = length (slices p).
Proof.
  intros Hinv Hr. unfold worker_value. destruct kv as [vName val].
  destruct (getFloat val) as [v err].
  destruct (bool_decide (err ≠ None) && negb (StringsAsLabels (Cfg p)));
    [by intros [= <-]|].
  by apply upsert_labelsSorted.
Qed.

Lemma worker_values_labelsSorted (now : Time) (ev : EventMsg) (r : sliceRef)
    (vals : list (string * anyValue)) (p p' : PrometheusOutput) :
  labelsSorted p → (r < length (slices p))%nat →
  foldl (λ acc kv, p ←! acc; worker_value now ev r kv p) (Done p) vals
  = Done p' →
  labelsSorted p'.
Proof.
  revert p. induction vals as [|kv vals IH]; intros p Hinv Hr; simpl.
  - by intros [= <-].
  - destruct (worker_value now ev r kv p) as [q|] eqn:Hq; simpl.
    + destruct (worker_value_labelsSorted now ev r kv p q Hinv Hr Hq)
        as [Hq' Hlen].
      apply IH; [done|lia].
    + clear. induction vals as [|kv' vals IH]; simpl; [done|apply IH].
Qed.

Lemma worker_event_labelsSorted (now : Time) (ev : EventMsg)
    (p p' : PrometheusOutput) :
  labelsSorted p → worker_event now ev p = Done p' → labelsSorted p'.
Proof.
  intros Hinv. unfold worker_event.
  apply worker_values_labelsSorted; simpl.
  - intros k e Hk. simpl in *. destruct (Hinv k e Hk) as [Hlt Hs].
    rewrite length_app. split; [lia|].
    unfold readSlice in *. by rewrite lookup_app_l.
  - rewrite length_app. simpl. lia.
Qed.

Lemma reachable_labelsSorted (cfg : Config) (p : PrometheusOutput) :
  reachable cfg p → labelsSorted p.
Proof.
  induction 1 as [|p p' now ev _ Hinv Hrun|p p' now _ Hinv Hrun].
  - intros k e. simpl. by rewrite lookup_empty.
  - by eapply worker_event_labelsSorted.
  - destruct (expireMetrics_subset now p p' Hrun) as (_ & Hsl & Hsub).
    intros k e Hk. rewrite Hsl. apply (Hinv k e). by apply Hsub.
Qed.

(** C10. [calculateKey] leaves the label slice of its metric sorted by
    name, and it runs before every store into the entries: in every
    reachable output, hence after each ingested event, the label slice of
    every entry is in ascending order of label names, and so is the label
    slice of every metric that [Collect] sends. *)
Theorem labels_sorted (cfg : Config) (p : PrometheusOutput) :
  reachable cfg p →
  (∀ pm h, Sorted nameOrder (readSlice (calculateKey pm h).2 (labels pm)))
  ∧ (∀ k e, entries p !! k = Some e →
            Sorted nameOrder (readSlice (slices p) (labels e)))
  ∧ (∀ now ev p', worker_event now ev p = Done p' →
       ∀ k e, entries p' !! k = Some e →
              Sorted nameOrder (readSlice (slices p') (labels e)))
  ∧ (∀ now ms p', Collect now p = Done (ms, p') →
       ∀ m, m ∈ ms → Sorted nameOrder (readSlice (slices p') (labels m))).
Proof.
  intros Hreach. split; [apply calculateKey_sorts|]. split; [|split].
  - intros k e Hk. by apply (reachable_labelsSorted cfg p Hreach k e).
  - intros now ev p' Hrun k e Hk.
    assert (reachable cfg p') as Hreach' by (by eapply reachable_event).
    by apply (reachable_labelsSorted cfg p' Hreach' k e).
  - intros now ms p' Hrun m Hm. unfold Collect in Hrun.
    destruct (expireMetrics now p) as [q|] eqn:Hq; [|done].
    simpl in Hrun. injection Hrun as <- <-.
    assert (reachable cfg q) as Hreach' by (by eapply reachable_expire).
    apply list_elem_of_fmap in Hm as ([k e] & -> & Hke).
    apply elem_of_map_to_list in Hke.
    by apply (reachable_labelsSorted cfg q Hreach' k e).
Qed.

End LabelOrder.

Lemma runOutput2_reachable (cfg : Config) :
  reachable (Cfg (setDefaults (newOutput cfg)).1) (runOutput2 cfg).
Proof.
  unfold runOutput2.
  destruct (worker_event 2000 (portEvent 1500) (runOutput cfg)) as [p|] eqn:Hrun.
  - eapply reachable_event; [apply runOutput_reachable|exact Hrun].
  - apply runOutput_reachable.
Qed.

Example run_portEvent :
  slicesOf (worker_event 2000 (portEvent 1500)
              (runOutput (runConfig minute true false)))
  = Done [[LabelPair "name" "eth0"];
          [LabelPair "card" "c7"; LabelPair "name" "p1"]]
  ∧ entryCount (worker_event 2000 (portEvent 1500)
                  (runOutput (runConfig minute true false)))
    = Done 3%nat.
Proof. split; vm_compute; reflexivity. Qed.

Lemma labels_sorted_witness :
  entries (runOutput2 (runConfig minute true false)) !! portKey
  = Some {| name := "out_octets"; labels := 1%nat; time := Some 1500%Z;
            value := Some 7%Z; addedAt := 2000%Z |}
  ∧ Sorted nameOrder
      (readSlice (slices (runOutput2 (runConfig minute true false))) 1%nat).
Proof.
  assert (entries (runOutput2 (runConfig minute true false)) !! portKey
          = Some {| name := "out_octets"; labels := 1%nat; time := Some 1500%Z;
                    value := Some 7%Z; addedAt := 2000%Z |}) as Hentry
    by (vm_compute; reflexivity).
  split; [exact Hentry|].
  destruct (labels_sorted
              (Cfg (setDefaults (newOutput (runConfig minute true false))).1)
              (runOutput2 (runConfig minute true false))) as (_ & Hsorted & _).
  - apply runOutput2_reachable.
  - exact (Hsorted portKey _ Hentry).
Defined.

(** *** Atomicity of an event *)

Section Atomicity.

Context {L : Library}.

Lemma step_exclusive (s s' : system) (l : label) :
  exclusive s → step s l s' → exclusive s'.
Proof.
  intros (Hw & He & Hc) Hstep. unfold exclusive.
  destruct Hstep as
    [s ev Hpc|s Hpc|s ev Hpc Hm|s ev now Hpc|s now ev r kv rest p' Hpc Hrun
    |s now ev r Hpc|s Hpc Hexp|s Hpc Hexp|s Hpc|s Hpc|s Hpc Hm
    |s now p' Hpc Hrun|s Hpc|s i Hpc|s i Hpc Hm|s i now p' Hpc Hrun
    |s i Hpc|s i Hpc];
    simpl; try pose proof (Hc i) as Hci; rewrite Hpc in *; simpl in *;
    try rewrite Hm in *;
    (split; [|split]);
    try (intros j; specialize (Hc j);
         destruct (decide (i = j)) as [<-|Hij];
         [rewrite ?lookup_insert_eq, ?lookup_delete_eq
         |rewrite ?lookup_insert_ne, ?lookup_delete_ne by done]);
    simpl; naive_solver.
Qed.

Lemma foldl_worker_value_snoc (now : Time) (ev : EventMsg) (r : sliceRef)
    (visited : list (string * anyValue)) (kv : string * anyValue)
    (o : outcome PrometheusOutput) (q : PrometheusOutput) :
  foldl (λ acc kv, p ←! acc; worker_value now ev r kv p) o visited = Done q →
  foldl (λ acc kv, p ←! acc; worker_value now ev r kv p) o (visited ++ [kv])
  = worker_value now ev r kv q.
Proof. intros Hq. by rewrite foldl_app, Hq. Qed.

Lemma step_consistent (cfg : Config) (s s' : system) (l : label) :
  exclusive s → consistent cfg s → step s l s' → consistent cfg s'.
Proof.
  intros (Hw & He & Hc) Hcons Hstep. unfold consistent in *.
  destruct Hstep as
    [s ev Hpc|s Hpc|s ev Hpc Hm|s ev now Hpc|s now ev r kv rest p' Hpc Hrun
    |s now ev r Hpc|s Hpc Hexp|s Hpc Hexp|s Hpc|s Hpc|s Hpc Hm
    |s now p' Hpc Hrun|s Hpc|s i Hpc|s i Hpc Hm|s i now p' Hpc Hrun
    |s i Hpc|s i Hpc];
    simpl; try (rewrite Hpc in Hcons); try done.
  - (* the labels are made *)
    exists (out s), []. split; [done|]. split; [done|]. split; [done|].
    reflexivity.
  - (* one value *)
    destruct Hcons as (p0 & visited & Hreach & Hvals & Hr & Hfold).
    exists p0, (visited ++ [kv]). split; [done|].
    split; [by rewrite <- app_assoc|]. split; [done|].
    by rewrite (foldl_worker_value_snoc now ev r visited kv _ (out s)).
  - (* the lock is given back *)
    destruct Hcons as (p0 & visited & Hreach & Hvals & Hr & Hfold).
    rewrite app_nil_r in Hvals. subst visited r.
    by eapply (reachable_event cfg p0 (out s) now ev).
  - (* the periodic sweep *)
    assert (mutex s = Some OExpirer) as Hm by (apply He; by rewrite Hpc).
    destruct (workerAt s) eqn:Hwpc; try by eapply reachable_expire.
    assert (mutex s = Some OWorker) by (by apply Hw). congruence.
  - (* the sweep of Collect *)
    assert (mutex s = Some (OCollector i)) as Hm
      by (apply (Hc i); by rewrite Hpc).
    destruct (workerAt s) eqn:Hwpc; try by eapply reachable_expire.
    assert (mutex s = Some OWorker) by (by apply Hw). congruence.
Qed.

Lemma running_invariant (cfg : Config) (s : system) :
  running cfg s → exclusive s ∧ consistent cfg s.
Proof.
  induction 1 as [|s l s' _ [Hex Hcons] Hstep].
  - split; [|apply reachable_new].
    unfold exclusive. simpl. split; [|split]; try naive_solver.
    intros i. rewrite lookup_empty. naive_solver.
  - split; [by eapply step_exclusive|by eapply step_consistent].
Qed.

(** C8. In every state of a run, the worker is inside the loop over the
    values of an event only while it holds the mutex; and when a call of
    [Collect] sends the entries, it holds the mutex, the worker is not
    inside that loop, and what is sent are the entries of an output that
    whole events and sweeps lead to: no event is applied in part. *)
Theorem event_atomicity (cfg : Config) (s : system) :
  running cfg s →
  (midEvent s → mutex s = Some OWorker)
  ∧ ∀ i ms s',
      step s (Sent i ms) s' →
      mutex s = Some (OCollector i)
      ∧ ¬ midEvent s
      ∧ reachable cfg (out s)
      ∧ ms = snd <$> map_to_list (entries (out s)).
Proof.
  intros Hrun.
  destruct (running_invariant cfg s Hrun) as [(Hw & He & Hc) Hcons].
  assert (midEvent s → mutex s = Some OWorker) as Hmid.
  { intros (now & ev & r & rest & Hpc). apply Hw. by rewrite Hpc. }
  split; [done|]. intros i ms s' Hstep.
  inversion Hstep as [| | | | | | | | | | | | | | | |s0 i0 Hpc|]; subst.
  assert (mutex s = Some (OCollector i)) as Hm
    by (apply (Hc i); by rewrite Hpc).
  assert (¬ midEvent s) as Hnot.
  { intros Hin. apply Hmid in Hin. congruence. }
  split; [done|]. split; [done|]. split; [|done].
  unfold consistent in Hcons.
  destruct (workerAt s) eqn:Hwpc; try done.
  exfalso. apply Hnot. by repeat eexists.
Qed.

End Atomicity.

Lemma runSystem4_running : running (runConfig minute false false) runSystem4.
Proof.
  apply (running_step _ runSystem3 Silent).
  - apply (running_step _ runSystem2 Silent).
    + apply (running_step _ runSystem1 Silent).
      * apply (running_step _ (initSystem (runConfig minute false false)) Silent);
          [apply running_init|].
        by apply worker_receive.
      * by apply collect_call.
    + by apply collect_lock.
  - by apply (collect_sweep runSystem3 0%nat 2000%Z).
Qed.

Lemma event_atomicity_witness :
  mutex runSystem4 = Some (OCollector 0)
  ∧ ¬ midEvent runSystem4
  ∧ reachable (runConfig minute false false) (out runSystem4)
  ∧ [] = snd <$> map_to_list (entries (out runSystem4)).
Proof.
  destruct (event_atomicity (runConfig minute false false) runSystem4)
    as [_ Hsend]; [apply runSystem4_running|].
  apply (Hsend 0%nat []
           (setCollectors (<[0%nat := CSent]> (collectors runSystem4)) runSystem4)).
  apply (collect_send runSystem4 0%nat). reflexivity.
Defined.

(** ** Further properties

    Properties of the functions above that the code shows, beyond the ones
    of the specification. *)

Lemma orElse_Done {A : Type} (o : outcome A) (d : A) :
  isDone o = true → o = Done (orElse o d).
Proof. by destruct o. Qed.

Lemma Collect_orElse (now : Time) (p : PrometheusOutput) :
  isDone (expireMetrics now p) = true →
  Collect now p
  = Done (snd <$> map_to_list (entries (orElse (expireMetrics now p) p)),
          orElse (expireMetrics now p) p).
Proof. unfold Collect. by destruct (expireMetrics now p). Qed.

Lemma runOutput2_Done :
  worker_event 2000 (portEvent 1500) (runOutput (runConfig minute true false))
  = Done (runOutput2 (runConfig minute true false)).
Proof. apply orElse_Done. vm_compute. reflexivity. Qed.

(** *** More on the metric identity *)



Lemma fnvWrite_app (h : N) (s1 s2 : string) :
  fnvWrite h (s1 +:+ s2) = fnvWrite (fnvWrite h s1) s2.
Proof. revert h. induction s1 as [|c s1 IH]; intros h; simpl; [done|apply IH]. Qed.

Lemma foldl_writeLabel (h : N) (ls : list labelPair) :
  foldl writeLabel h ls = fnvWrite h (labelsBytes ls).
Proof.
  revert h. induction ls as [|l ls IH]; intros h; simpl; [done|].
  rewrite IH. unfold writeLabel, labelBytes. by rewrite !fnvWrite_app.
Qed.

Lemma string_app_assoc (s1 s2 s3 : string) :
  (s1 +:+ s2) +:+ s3 = s1 +:+ (s2 +:+ s3).
Proof.
  induction s1 as [|c s1 IH]; [reflexivity|].
  change (String c ((s1 +:+ s2) +:+ s3) = String c (s1 +:+ (s2 +:+ s3))).
  by f_equal.
Qed.

Section MoreIdentity.

Context {L : Library}.

(** The slice of the metric after [calculateKey]. *)
Lemma calculateKey_slice (p : promMetric) (heap : list (list labelPair)) :
  readSlice (calculateKey p heap).2 (labels p)
  = match readSlice heap (labels p) with
    | [] => []
    | ls => sortSlice labelPair lessName ls
    end.
Proof.
  unfold calculateKey.
  destruct (readSlice heap (labels p)) as [|l ls] eqn:Hr; simpl.
  - by rewrite Hr.
  - unfold readSlice in *.
    destruct (heap !! labels p) as [ls'|] eqn:Hl; [|done]. simpl in Hr. subst.
    by rewrite list_lookup_insert_eq by (by eapply lookup_lt_Some).
Qed.

(** The key as one hash of the bytes of the name and the sorted labels. *)
Lemma calculateKey_hash `{!SortSliceSpec L}
    (p : promMetric) (heap : list (list labelPair)) :
  (calculateKey p heap).1
  = fnvWrite offset64
      (keyBytes (name p)
         match readSlice heap (labels p) with
         | [] => []
         | ls => sortSlice labelPair lessName ls
         end).
Proof.
  unfold calculateKey.
  destruct (readSlice heap (labels p)) as [|l ls] eqn:Hr;
    cbn [length Nat.ltb Nat.leb fst]; [done|].
  rewrite foldl_writeLabel.
  destruct (sortSlice labelPair lessName (l :: ls)) as [|l' ls'] eqn:Hs.
  - pose proof (sortSlice_Permutation labelPair lessName (l :: ls)) as Hp.
    rewrite Hs in Hp. by apply Permutation_nil_cons in Hp.
  - unfold keyBytes. by rewrite !fnvWrite_app.
Qed.

(** A metric of the same name on the same slice, after the slice has been
    sorted once: the same key, and nothing changes any more. *)
Lemma calculateKey_repeat `{!SortSliceSpec L}
    (p q : promMetric) (heap : list (list labelPair)) :
  name q = name p → labels q = labels p →
  NoDup (Name <$> readSlice heap (labels p)) →
  calculateKey q (calculateKey p heap).2 = calculateKey p heap.
Proof.
  intros Hname Hlabels Hnd.
  pose proof (calculateKey_slice p heap) as Hslice.
  destruct (readSlice heap (labels p)) as [|l ls] eqn:Hr.
  - assert (calculateKey p heap = (fnvWrite offset64 (name p), heap)) as Hc
      by (unfold calculateKey; by rewrite Hr).
    rewrite Hc. cbn [snd]. unfold calculateKey. by rewrite Hname, Hlabels, Hr.
  - set (sorted := sortSlice labelPair lessName (l :: ls)) in *.
    assert (calculateKey p heap
            = (foldl writeLabel (fnvWrite (fnvWrite offset64 (name p)) ":")
                 sorted, <[labels p := sorted]> heap)) as Hc
      by (unfold calculateKey; by rewrite Hr).
    rewrite Hc in *. cbn [snd] in *.
    assert (sortSlice labelPair lessName sorted = sorted) as Hidem.
    { apply sorted_labels_unique.
      - unfold sorted. by rewrite !sortSlice_Permutation.
      - apply sortSlice_Permutation.
      - apply sortSlice_Sorted, lessName_ordering.
      - apply sortSlice_Sorted, lessName_ordering. }
    assert (length sorted = S (length ls)) as Hlen.
    { unfold sorted. by rewrite sortSlice_Permutation. }
    unfold calculateKey. rewrite Hname, Hlabels, Hslice, Hlen.
    cbn [Nat.ltb Nat.leb].
    by rewrite Hidem, list_insert_insert_eq.
Qed.


(** X2. The key is the FNV-1a hash of one byte string: the metric name, and
    when there are labels a colon and then, for each label of the slice as
    the call leaves it, its name, a colon, its value and a colon. *)
Theorem calculateKey_keyBytes `{!SortSliceSpec L}
    (p : promMetric) (heap : list (list labelPair)) :
  (calculateKey p heap).1
  = fnvWrite offset64
      (keyBytes (name p) (readSlice (calculateKey p heap).2 (labels p))).
Proof. rewrite calculateKey_slice. apply calculateKey_hash. Qed.

(** X3. The colon does not separate: a metric with the one label [n1] of
    value [v1:n2:v2] and a metric of the same name with the two labels [n1]
    of value [v1] and [n2] of value [v2], where [n1] is less than [n2], have
    the same key. *)
Theorem calculateKey_colon_collision `{!SortSliceSpec L}
    (p1 p2 : promMetric) (h1 h2 : list (list labelPair))
    (n1 v1 n2 v2 : string) :
  name p1 = name p2 →
  String.ltb n1 n2 = true →
  readSlice h1 (labels p1) = [LabelPair n1 (v1 +:+ ":" +:+ n2 +:+ ":" +:+ v2)] →
  readSlice h2 (labels p2) ≡ₚ [LabelPair n1 v1; LabelPair n2 v2] →
  (calculateKey p1 h1).1 = (calculateKey p2 h2).1.
Proof.
  intros Hn Hlt Hl1 Hl2.
  rewrite !calculateKey_hash, Hn, Hl1.
  assert (sortSlice labelPair lessName
            [LabelPair n1 (v1 +:+ ":" +:+ n2 +:+ ":" +:+ v2)]
          = [LabelPair n1 (v1 +:+ ":" +:+ n2 +:+ ":" +:+ v2)]) as ->.
  { apply Permutation_singleton_r, sortSlice_Permutation. }
  assert (sortSlice labelPair lessName (readSlice h2 (labels p2))
          = [LabelPair n1 v1; LabelPair n2 v2]) as Hsort.
  { apply sorted_labels_unique.
    - rewrite sortSlice_Permutation, Hl2. simpl.
      apply NoDup_cons. split; [|apply NoDup_singleton].
      intros ->%list_elem_of_singleton.
      pose proof (less_irrefl lessName lessName_ordering (LabelPair n2 "")) as Hirr.
      unfold lessName in Hirr. simpl in Hirr. congruence.
    - by rewrite sortSlice_Permutation.
    - apply sortSlice_Sorted, lessName_ordering.
    - repeat constructor. unfold nameOrder.
      destruct (lessName (LabelPair n2 v2) (LabelPair n1 v1)) eqn:Hgt; [|done].
      assert (lessName (LabelPair n1 v1) (LabelPair n1 v1) = true) as Hxx
        by (apply (less_trans lessName lessName_ordering _ (LabelPair n2 v2));
            [exact Hlt|exact Hgt]).
      by rewrite (less_irrefl lessName lessName_ordering) in Hxx. }
  destruct (readSlice h2 (labels p2)) as [|l ls] eqn:Hr.
  { by apply Permutation_nil_cons in Hl2. }
  rewrite Hsort. f_equal. simpl. unfold labelBytes. simpl.
  by rewrite !string_app_assoc.
Qed.

(** X4. [calculateKey] keeps the store of slices as long as it was, leaves
    every slice but the one of its metric as it was, and leaves in that one
    the same labels, each as often as before. *)
Theorem calculateKey_frame `{!SortSliceSpec L}
    (p : promMetric) (heap : list (list labelPair)) :
  length (calculateKey p heap).2 = length heap
  ∧ (∀ r, r ≠ labels p →
          readSlice (calculateKey p heap).2 r = readSlice heap r)
  ∧ readSlice (calculateKey p heap).2 (labels p) ≡ₚ readSlice heap (labels p).
Proof.
  split; [|split].
  - unfold calculateKey. destruct (0 <? length _)%nat; simpl; [|done].
    apply length_insert.
  - intros r Hr. by apply calculateKey_other_slice.
  - rewrite calculateKey_slice.
    destruct (readSlice heap (labels p)); [done|apply sortSlice_Permutation].
Qed.

(** X5. When the names of the labels are pairwise distinct, computing the
    key again, on the slice that the first computation has sorted, gives the
    same key and changes nothing more. *)
Theorem calculateKey_again `{!SortSliceSpec L}
    (p : promMetric) (heap : list (list labelPair)) :
  NoDup (Name <$> readSlice heap (labels p)) →
  calculateKey p (calculateKey p heap).2 = calculateKey p heap.
Proof. by apply calculateKey_repeat. Qed.

End MoreIdentity.

Lemma calculateKey_keyBytes_witness :
  let pm := PromMetric "in_octets" 0%nat None (Some 7%Z) 0%Z in
  let heap := [[LabelPair "b" "2"; LabelPair "a" "1"]] in
  (calculateKey pm heap).1 = fnvWrite offset64 "in_octets:a:1:b:2:".
Proof. intros pm heap. exact (calculateKey_keyBytes pm heap). Defined.

Lemma calculateKey_colon_collision_witness :
  let p1 := PromMetric "m" 0%nat None (Some 7%Z) 0%Z in
  let p2 := PromMetric "m" 1%nat None (Some 8%Z) 0%Z in
  let heap := [[LabelPair "a" "1:b:2"];
               [LabelPair "b" "2"; LabelPair "a" "1"]] in
  (calculateKey p1 heap).1 = (calculateKey p2 heap).1.
Proof.
  intros p1 p2 heap.
  apply (calculateKey_colon_collision p1 p2 heap heap "a" "1" "b" "2");
    [reflexivity|reflexivity|reflexivity|apply perm_swap].
Defined.

Lemma calculateKey_frame_witness :
  let pm := PromMetric "in_octets" 0%nat None (Some 7%Z) 0%Z in
  let heap := [[LabelPair "b" "2"; LabelPair "a" "1"]; [LabelPair "c" "3"]] in
  length (calculateKey pm heap).2 = 2%nat
  ∧ (∀ r, r ≠ 0%nat → readSlice (calculateKey pm heap).2 r = readSlice heap r)
  ∧ readSlice (calculateKey pm heap).2 0%nat
    ≡ₚ [LabelPair "b" "2"; LabelPair "a" "1"].
Proof. intros pm heap. exact (calculateKey_frame pm heap). Defined.

Lemma calculateKey_again_witness :
  let pm := PromMetric "in_octets" 0%nat None (Some 7%Z) 0%Z in
  let heap := [[LabelPair "b" "2"; LabelPair "a" "1"]] in
  calculateKey pm (calculateKey pm heap).2 = calculateKey pm heap.
Proof.
  intros pm heap. apply (calculateKey_again pm heap).
  by apply (bool_decide_unpack _).
Defined.

(** *** More on the label projection *)

Lemma Base_nonempty (path : string) : Base path ≠ "".
Proof.
  unfold Base. destruct (String.eqb path ""); [done|].
  destruct (String.eqb (lastElement (TrimRight "/" path)) "") eqn:He; [done|].
  by apply String.eqb_neq in He.
Qed.

Lemma labelName_valid (k : string) :
  labelName k ≠ "" ∧ allNameChars (labelName k) = true.
Proof.
  split; [|apply allNameChars_replaceRuns].
  unfold labelName, ReplaceAllString.
  pose proof (Base_nonempty k) as Hb.
  destruct (Base k) as [|c s]; [done|]. simpl. by destruct (nameChar c).
Qed.

(** What the loop over the tags appends, and what it records. *)
Lemma tagStep_fold (tags : list (string * string))
    (ls : list labelPair) (a : gset string) :
  ∃ ext,
    foldl tagStep (ls, a) tags
    = (ls ++ ext, a ∪ list_to_set (labelName <$> (tags.*1)))
    ∧ ∀ l, l ∈ ext → ∃ k v, (k, v) ∈ tags ∧ l = LabelPair (labelName k) v.
Proof.
  revert ls a. induction tags as [|[k v] tags IH]; intros ls a.
  - exists []. split; [|by intros l ?%elem_of_nil].
    simpl. f_equal; [by rewrite app_nil_r|set_solver].
  - simpl. destruct (decide (labelName k ∈ a)) as [Hk|Hk].
    + destruct (IH ls a) as (ext & -> & Hext). exists ext. split.
      * f_equal. set_solver.
      * intros l Hl. destruct (Hext l Hl) as (k' & v' & Hin & ->).
        exists k', v'. split; [by right|done].
    + destruct (IH (ls ++ [LabelPair (labelName k) v]) ({[labelName k]} ∪ a))
        as (ext & -> & Hext).
      exists (LabelPair (labelName k) v :: ext). split.
      * f_equal; [by rewrite <- app_assoc|set_solver].
      * intros l [->|Hl]%elem_of_cons.
        -- exists k, v. split; [by left|done].
        -- destruct (Hext l Hl) as (k' & v' & Hin & ->).
           exists k', v'. split; [by right|done].
Qed.

Section MoreLabels.

Context {L : Library}.

(** One value: nothing happens, or a label is appended for a string that is
    no number and whose label name is not recorded. *)
Lemma valueStep_cases (ls : list labelPair) (a : gset string)
    (k : string) (v : anyValue) :
  valueStep (ls, a) (k, v) = (ls, a)
  ∨ ∃ s, v = A_string s ∧ ParseFloat s = None ∧ (labelName k ∉ a)
         ∧ valueStep (ls, a) (k, v) = (ls ++ [LabelPair (labelName k) s], a).
Proof.
  unfold valueStep. destruct v; simpl; try by left.
  destruct (ParseFloat s) as [f|] eqn:Hp; simpl; [by left|].
  destruct (decide (labelName k ∈ a)) as [Hk|Hk]; [by left|].
  right. by exists s.
Qed.

(** What the loop over the values appends; it records nothing. *)
Lemma valueStep_fold (vals : list (string * anyValue))
    (ls : list labelPair) (a : gset string) :
  ∃ ext,
    foldl valueStep (ls, a) vals = (ls ++ ext, a)
    ∧ ∀ l, l ∈ ext →
           (Name l ∉ a)
           ∧ ∃ k s, (k, A_string s) ∈ vals ∧ ParseFloat s = None
                    ∧ l = LabelPair (labelName k) s.
Proof.
  revert ls. induction vals as [|[k v] vals IH]; intros ls.
  - exists []. split; [by rewrite app_nil_r|by intros l ?%elem_of_nil].
  - change (foldl valueStep (ls, a) ((k, v) :: vals))
      with (foldl valueStep (valueStep (ls, a) (k, v)) vals).
    destruct (valueStep_cases ls a k v) as [->|(s & -> & Hp & Hk & ->)].
    + destruct (IH ls) as (ext & -> & Hext). exists ext.
      split; [done|]. intros l Hl.
      destruct (Hext l Hl) as (Hna & k' & s & Hin & Hp & ->).
      split; [done|]. exists k', s. split; [by right|done].
    + destruct (IH (ls ++ [LabelPair (labelName k) s])) as (ext & -> & Hext).
      exists (LabelPair (labelName k) s :: ext). split.
      * by rewrite <- app_assoc.
      * intros l [->|Hl]%elem_of_cons.
        -- split; [done|]. exists k, s. split; [by left|done].
        -- destruct (Hext l Hl) as (Hna & k' & s' & Hin & Hp' & ->).
           split; [done|]. exists k', s'. split; [by right|done].
Qed.

(** X6. Every label that [getLabels] returns has a name that is not empty
    and consists of bytes of [a-zA-Z0-9_]. *)
Theorem getLabels_names_valid (cfg : Config) (ev : EventMsg)
    (l : labelPair) :
  l ∈ getLabels cfg ev →
  Name l ≠ "" ∧ allNameChars (Name l) = true.
Proof.
  unfold getLabels.
  destruct (tagStep_fold (formatters.Tags ev) [] ∅) as (ext & -> & Hext).
  destruct (valueStep_fold (formatters.Values ev) ([] ++ ext)
              (∅ ∪ list_to_set (labelName <$> ((formatters.Tags ev).*1))))
    as (ext' & -> & Hext').
  assert (l ∈ ext ∨ l ∈ ext' → Name l ≠ "" ∧ allNameChars (Name l) = true)
    as Hvalid.
  { intros [Hl|Hl].
    - destruct (Hext l Hl) as (k & v & _ & ->). apply labelName_valid.
    - destruct (Hext' l Hl) as (_ & k & s & _ & _ & ->). apply labelName_valid. }
  destruct (negb (StringsAsLabels cfg)); simpl; intros Hl; apply Hvalid.
  - by left.
  - by apply elem_of_app in Hl.
Qed.

(** X7. Of the tags whose names give one label name, the first that the
    loop visits gives the label its value: for a tag [k] of value [v] before
    which no tag has the label name of [k], the label of that name and of
    value [v] is among the labels returned. *)
Theorem getLabels_first_tag_wins (cfg : Config) (ev : EventMsg)
    (before after : list (string * string)) (k v : string) :
  formatters.Tags ev = before ++ (k, v) :: after →
  (∀ kv, kv ∈ before → labelName kv.1 ≠ labelName k) →
  LabelPair (labelName k) v ∈ getLabels cfg ev.
Proof.
  intros Htags Hfirst.
  assert (LabelPair (labelName k) v ∈ tagLabels (formatters.Tags ev)) as Hin.
  { unfold tagLabels. rewrite Htags, foldl_app.
    destruct (tagStep_fold before [] ∅) as (ext & -> & _).
    simpl.
    destruct (decide (labelName k ∈
                ∅ ∪ list_to_set (labelName <$> (before.*1)))) as [Hk|Hk].
    { exfalso. apply elem_of_union in Hk as [Hk|Hk]; [set_solver|].
      apply elem_of_list_to_set, list_elem_of_fmap in Hk as (k' & Hk' & Hin).
      apply list_elem_of_fmap in Hin as (kv & -> & Hin).
      by apply (Hfirst kv Hin). }
    destruct (tagStep_fold after (ext ++ [LabelPair (labelName k) v])
                ({[labelName k]} ∪ (∅ ∪ list_to_set (labelName <$> (before.*1)))))
      as (ext' & -> & _).
    simpl. apply elem_of_app. left. apply elem_of_app. right. by left. }
  unfold getLabels. fold (tagLabels (formatters.Tags ev)).
  destruct (negb (StringsAsLabels cfg)); [done|].
  unfold tagLabels in *.
  destruct (foldl tagStep ([], ∅) (formatters.Tags ev)) as [ls a].
  destruct (valueStep_fold (formatters.Values ev) ls a) as (ext' & -> & _).
  simpl in *. apply elem_of_app. by left.
Qed.

(** X8. The labels made from the tags have pairwise distinct names; they are
    all the labels when strings are no labels. *)
Theorem getLabels_tag_names_distinct (cfg : Config) (ev : EventMsg) :
  NoDup (Name <$> tagLabels (formatters.Tags ev))
  ∧ (StringsAsLabels cfg = false →
     getLabels cfg ev = tagLabels (formatters.Tags ev)).
Proof.
  split.
  - unfold tagLabels.
    apply tagStep_invariant; simpl; [constructor|]. by intros l ?%elem_of_nil.
  - intros Hs. unfold getLabels, tagLabels. by rewrite Hs.
Qed.

(** X9. With strings as labels, [getLabels] returns the labels made from
    the tags followed by labels made from values: each of these comes from a
    value that is a string and no number, has the label name of the name of
    that value and the string as its value, and has a name that no label made
    from a tag has. *)
Theorem getLabels_value_labels (cfg : Config) (ev : EventMsg) :
  StringsAsLabels cfg = true →
  ∃ ext,
    getLabels cfg ev = tagLabels (formatters.Tags ev) ++ ext
    ∧ ∀ l, l ∈ ext →
           (Name l ∉ Name <$> tagLabels (formatters.Tags ev))
           ∧ ∃ k s, (k, A_string s) ∈ formatters.Values ev
                    ∧ ParseFloat s = None
                    ∧ l = LabelPair (labelName k) s.
Proof.
  intros Hs. unfold getLabels, tagLabels. rewrite Hs. simpl.
  pose proof (tagStep_invariant (formatters.Tags ev) ([], ∅)) as [_ Hadded].
  { constructor. }
  { by intros l ?%elem_of_nil. }
  destruct (foldl tagStep ([], ∅) (formatters.Tags ev)) as [ls a].
  destruct (valueStep_fold (formatters.Values ev) ls a) as (ext & -> & Hext).
  exists ext. split; [done|]. intros l Hl.
  destruct (Hext l Hl) as (Hna & Hfrom). split; [|done].
  intros (l' & Hname & Hl')%list_elem_of_fmap.
  apply Hna. rewrite Hname. by apply Hadded.
Qed.

End MoreLabels.

Lemma getLabels_names_valid_witness :
  Name (LabelPair "card" "c7") ≠ ""
  ∧ allNameChars (Name (LabelPair "card" "c7")) = true.
Proof.
  apply (getLabels_names_valid (runConfig minute false false) (portEvent 1500)
           (LabelPair "card" "c7")).
  vm_compute. right. left.
Defined.

Lemma getLabels_first_tag_wins_witness :
  LabelPair (labelName "/port/card") "c7"
  ∈ getLabels (runConfig minute false false) (portEvent 1500).
Proof.
  apply (getLabels_first_tag_wins (runConfig minute false false)
           (portEvent 1500) [("/port/name", "p1")] [] "/port/card" "c7").
  - reflexivity.
  - intros kv ->%list_elem_of_singleton. vm_compute. discriminate.
Defined.

Lemma getLabels_value_labels_witness :
  ∃ ext,
    getLabels (runConfig minute false true) statusEvent
    = tagLabels (formatters.Tags statusEvent) ++ ext
    ∧ ∀ l, l ∈ ext →
        (Name l ∉ Name <$> tagLabels (formatters.Tags statusEvent))
        ∧ ∃ k s, (k, A_string s) ∈ formatters.Values statusEvent
                 ∧ ParseFloat s = None
                 ∧ l = LabelPair (labelName k) s.
Proof.
  apply (getLabels_value_labels (runConfig minute false true) statusEvent).
  reflexivity.
Defined.

(** *** More on the metric names *)

Lemma replaceRuns_valid (b : bool) (s : string) :
  allNameChars s = true → replaceRuns b s = s.
Proof.
  revert b. induction s as [|c s IH]; intros b; simpl; [done|].
  intros [Hc Hs]%andb_prop. rewrite Hc. by rewrite IH.
Qed.

Lemma TrimLeft_no_underscore (s : string) :
  (∀ rest, s ≠ String "_" rest) → TrimLeft "_" s = s.
Proof.
  destruct s as [|c s]; simpl; [done|]. intros Hs.
  destruct (Ascii.eqb_spec c "_") as [->|Hc]; [|done]. by destruct (Hs s).
Qed.

Lemma TrimLeft_head (s rest : string) : TrimLeft "_" s ≠ String "_" rest.
Proof.
  induction s as [|c s IH]; simpl; [done|].
  destruct (Ascii.eqb_spec c "_") as [->|Hc]; [done|]. congruence.
Qed.

Lemma TrimLeft_replaceRuns_empty (b : bool) (s : string) :
  TrimLeft "_" (replaceRuns b s) = "" ↔ noLetterOrDigit s = true.
Proof.
  revert b. induction s as [|c s IH]; intros b; simpl; [done|].
  destruct (nameChar c) eqn:Hc; simpl.
  - destruct (Ascii.eqb_spec c "_") as [->|Hne]; simpl; [apply IH|].
    split; [done|]. by destruct (noLetterOrDigit s).
  - destruct b; simpl; apply IH.
Qed.

Section MoreNames.

Context {L : Library}.

Lemma metricName_plain (cfg : Config) (measName valueName : string) :
  metricName (plainNames cfg) measName valueName
  = TrimLeft "_" (ReplaceAllString valueName).
Proof. reflexivity. Qed.

(** X10. With no prefix and the subscription name not appended, a value
    name that consists of bytes of [a-zA-Z0-9_] and does not start with an
    underscore is its own metric name. *)
Theorem metricName_of_valid_name (cfg : Config) (measName valueName : string) :
  allNameChars valueName = true →
  (∀ rest, valueName ≠ String "_" rest) →
  metricName (plainNames cfg) measName valueName = valueName.
Proof.
  intros Hvalid Hhead. rewrite metricName_plain. unfold ReplaceAllString.
  rewrite replaceRuns_valid by done. by apply TrimLeft_no_underscore.
Qed.

(** X11. With no prefix and the subscription name not appended, the metric
    name of a metric name is that metric name: naming is idempotent. *)
Theorem metricName_idempotent (cfg : Config) (m1 m2 valueName : string) :
  metricName (plainNames cfg) m2 (metricName (plainNames cfg) m1 valueName)
  = metricName (plainNames cfg) m1 valueName.
Proof.
  rewrite !metricName_plain. unfold ReplaceAllString.
  rewrite (replaceRuns_valid false (TrimLeft "_" (replaceRuns false valueName))).
  - apply TrimLeft_no_underscore. intros rest. apply TrimLeft_head.
  - apply allNameChars_TrimLeft, allNameChars_replaceRuns.
Qed.

(** X12. With no prefix and the subscription name not appended, the metric
    name is empty exactly when the value name has no letter and no digit. *)
Theorem metricName_empty_iff (cfg : Config) (measName valueName : string) :
  metricName (plainNames cfg) measName valueName = ""
  ↔ noLetterOrDigit valueName = true.
Proof. rewrite metricName_plain. apply TrimLeft_replaceRuns_empty. Qed.

End MoreNames.

Lemma metricName_of_valid_name_witness :
  metricName (plainNames (runConfig minute false false)) "sub1" "in_octets"
  = "in_octets".
Proof.
  apply (metricName_of_valid_name (runConfig minute false false) "sub1"
           "in_octets").
  - reflexivity.
  - intros rest. discriminate.
Defined.

(** *** More on the ingestion *)

Section MoreIngestion.

Context {L : Library}.

Lemma upsert_cases (pm : promMetric) (p p' : PrometheusOutput) :
  upsert pm p = Done p' →
  Cfg p' = Cfg p
  ∧ slices p' = (calculateKey pm (slices p)).2
  ∧ (entries p' = entries p
     ∨ entries p' = <[(calculateKey pm (slices p)).1 := pm]> (entries p)).
Proof.
  rewrite upsert_unfold. simpl.
  destruct (entries p !! _) as [e|]; [|intros [= <-]; auto].
  destruct (time pm) as [t|]; [|intros [= <-]; auto].
  destruct (time e) as [te|]; [|done].
  destruct (Before te t); intros [= <-]; auto.
Qed.

Lemma foldl_worker_Panic (now : Time) (ev : EventMsg) (r : sliceRef)
    (vals : list (string * anyValue)) :
  foldl (λ acc kv, p ←! acc; worker_value now ev r kv p) Panic vals = Panic.
Proof. induction vals as [|kv vals IH]; simpl; [done|apply IH]. Qed.

Lemma foldl_worker_cons (now : Time) (ev : EventMsg) (r : sliceRef)
    (kv : string * anyValue) (vals : list (string * anyValue))
    (p p' : PrometheusOutput) :
  foldl (λ acc kv, p ←! acc; worker_value now ev r kv p) (Done p) (kv :: vals)
  = Done p' →
  ∃ q, worker_value now ev r kv p = Done q
       ∧ foldl (λ acc kv, p ←! acc; worker_value now ev r kv p) (Done q) vals
         = Done p'.
Proof.
  simpl. destruct (worker_value now ev r kv p) as [q|]; simpl.
  - intros Hq. by exists q.
  - by rewrite foldl_worker_Panic.
Qed.

(** One value is skipped, or it is one upsert of a metric that has the
    slice of the event. *)
Lemma worker_value_cases (now : Time) (ev : EventMsg) (r : sliceRef)
    (kv : string * anyValue) (p p' : PrometheusOutput) :
  worker_value now ev r kv p = Done p' →
  p' = p
  ∨ ∃ pm, labels pm = r
          ∧ time pm = (if ExportTimestamps (Cfg p)
                       then Some (Unix0 (formatters.Timestamp ev)) else None)
          ∧ upsert pm p = Done p'.
Proof.
  unfold worker_value. destruct kv as [vName val].
  destruct (getFloat val) as [v err].
  destruct (bool_decide (err ≠ None) && negb (StringsAsLabels (Cfg p))).
  - intros [= <-]. by left.
  - intros Hup. right. eexists. split; [|split; [|exact Hup]]; done.
Qed.

(** X13. Ingesting an event removes no entry and adds at most one entry for
    each value of the event. *)
Theorem worker_event_keeps_keys (now : Time) (ev : EventMsg)
    (p p' : PrometheusOutput) :
  worker_event now ev p = Done p' →
  dom (entries p) ⊆ dom (entries p')
  ∧ size (entries p') ≤ size (entries p) + length (formatters.Values ev).
Proof.
  unfold worker_event.
  change (entries p)
    with (entries (withSlices (slices p ++ [getLabels (Cfg p) ev]) p)).
  generalize (withSlices (slices p ++ [getLabels (Cfg p) ev]) p).
  generalize (length (slices p)). intros r.
  induction (formatters.Values ev) as [|kv vals IH]; intros q.
  - simpl. intros [= <-]. split; [done|lia].
  - intros (q' & Hstep & Hrest)%foldl_worker_cons.
    destruct (IH q' Hrest) as [Hdom Hsize].
    assert (dom (entries q) ⊆ dom (entries q')
            ∧ size (entries q') ≤ S (size (entries q))) as [Hd Hs].
    { apply worker_value_cases in Hstep as [->|(pm & _ & _ & Hup)].
      - split; [done|lia].
      - apply upsert_cases in Hup as (_ & _ & [->| ->]).
        + split; [done|lia].
        + split; [rewrite dom_insert; set_solver|].
          destruct (entries q !! (calculateKey pm (slices q)).1) eqn:Hk.
          * rewrite map_size_insert_Some by done. lia.
          * rewrite map_size_insert_None by done. lia. }
    split; [set_solver|]. simpl. lia.
Qed.

Lemma upsert_frame (pm : promMetric) (p p' : PrometheusOutput) :
  upsert pm p = Done p' →
  Cfg p' = Cfg p
  ∧ length (slices p') = length (slices p)
  ∧ ∀ r, r ≠ labels pm → readSlice (slices p') r = readSlice (slices p) r.
Proof.
  intros (Hcfg & -> & _)%upsert_cases. split; [done|]. split.
  - unfold calculateKey. destruct (0 <? length _)%nat; simpl; [|done].
    apply length_insert.
  - intros r Hr. by apply calculateKey_other_slice.
Qed.

Lemma worker_values_frame (now : Time) (ev : EventMsg) (r : sliceRef)
    (vals : list (string * anyValue)) (p p' : PrometheusOutput) :
  foldl (λ acc kv, p ←! acc; worker_value now ev r kv p) (Done p) vals
  = Done p' →
  Cfg p' = Cfg p
  ∧ length (slices p') = length (slices p)
  ∧ ∀ r', r' ≠ r → readSlice (slices p') r' = readSlice (slices p) r'.
Proof.
  revert p. induction vals as [|kv vals IH]; intros p.
  - simpl. by intros [= <-].
  - intros (q & Hstep & Hrest)%foldl_worker_cons.
    destruct (IH q Hrest) as (Hcfg & Hlen & Hother).
    apply worker_value_cases in Hstep as [->|(pm & Hr & _ & Hup)]; [done|].
    apply upsert_frame in Hup as (Hcfg' & Hlen' & Hother').
    split; [congruence|]. split; [congruence|].
    intros r' Hr'. rewrite Hother by done. apply Hother'. congruence.
Qed.

(** X14. Ingesting an event leaves the configuration as it is, adds one
    slice to the store of slices, and leaves every slice that was there
    before as it was: the in-place sort touches the labels of no entry of an
    earlier event. *)
Theorem worker_event_frame (now : Time) (ev : EventMsg)
    (p p' : PrometheusOutput) :
  worker_event now ev p = Done p' →
  Cfg p' = Cfg p
  ∧ length (slices p') = S (length (slices p))
  ∧ ∀ r, r < length (slices p) →
         readSlice (slices p') r = readSlice (slices p) r.
Proof.
  unfold worker_event. intros Hrun.
  apply worker_values_frame in Hrun as (Hcfg & Hlen & Hother).
  simpl in *. split; [done|]. split.
  - rewrite Hlen, length_app. simpl. lia.
  - intros r Hr. rewrite Hother by lia.
    unfold readSlice. by rewrite lookup_app_l.
Qed.

(** The timestamp of an entry under [k] is not later in [p] than in [q]. *)
Definition notEarlier (p q : PrometheusOutput) : Prop :=
  ∀ k e t, entries p !! k = Some e → time e = Some t →
           ∃ e' t', entries q !! k = Some e' ∧ time e' = Some t' ∧ (t ≤ t')%Z.

Lemma upsert_notEarlier (pm : promMetric) (p p' : PrometheusOutput) :
  is_Some (time pm) → upsert pm p = Done p' → notEarlier p p'.
Proof.
  intros [tp Htp]. rewrite upsert_unfold. simpl. rewrite Htp.
  set (key := (calculateKey pm (slices p)).1).
  intros Hup k e t Hk Ht.
  destruct (entries p !! key) as [e0|] eqn:Hkey.
  - destruct (time e0) as [te|] eqn:Hte; [|done].
    unfold Before in Hup. destruct (Z.ltb_spec te tp); injection Hup as <-.
    + simpl. destruct (decide (key = k)) as [<-|Hne].
      * rewrite lookup_insert_eq. exists pm, tp.
        split; [done|]. split; [done|]. simplify_eq. lia.
      * rewrite lookup_insert_ne by done. exists e, t. split; [done|]. 
        split; [done|lia].
    + simpl. exists e, t. split; [done|]. split; [done|lia].
  - injection Hup as <-. simpl.
    destruct (decide (key = k)) as [<-|Hne]; [congruence|].
    rewrite lookup_insert_ne by done. exists e, t.
    split; [done|]. split; [done|lia].
Qed.

Lemma worker_values_notEarlier (now : Time) (ev : EventMsg) (r : sliceRef)
    (vals : list (string * anyValue)) (p p' : PrometheusOutput) :
  ExportTimestamps (Cfg p) = true →
  foldl (λ acc kv, p ←! acc; worker_value now ev r kv p) (Done p) vals
  = Done p' →
  notEarlier p p'.
Proof.
  revert p. induction vals as [|kv vals IH]; intros p Hts.
  - simpl. intros [= <-] k e t Hk Ht. exists e, t.
    split; [done|]. split; [done|lia].
  - intros (q & Hstep & Hrest)%foldl_worker_cons.
    assert (Cfg q = Cfg p ∧ notEarlier p q) as [Hcfg Hpq].
    { apply worker_value_cases in Hstep as [->|(pm & _ & Htime & Hup)].
      - split; [done|]. intros k e t Hk Ht. exists e, t.
        split; [done|]. split; [done|lia].
      - split; [by apply upsert_cases in Hup as (? & _)|].
        apply (upsert_notEarlier pm); [|done]. rewrite Htime, Hts. by eexists. }
    assert (notEarlier q p') as Hqp by (apply IH; [congruence|done]).
    intros k e t Hk Ht.
    destruct (Hpq k e t Hk Ht) as (e1 & t1 & Hk1 & Ht1 & Hle1).
    destruct (Hqp k e1 t1 Hk1 Ht1) as (e2 & t2 & Hk2 & Ht2 & Hle2).
    exists e2, t2. split; [done|]. split; [done|lia].
Qed.

(** X15. When timestamps are exported, ingesting an event never moves an
    entry back in time: an entry that has a timestamp before has, under the
    same key, a timestamp that is not earlier afterwards. *)
Theorem worker_event_never_back_in_time (now : Time) (ev : EventMsg)
    (p p' : PrometheusOutput) :
  ExportTimestamps (Cfg p) = true →
  worker_event now ev p = Done p' →
  ∀ k e t, entries p !! k = Some e → time e = Some t →
           ∃ e' t', entries p' !! k = Some e' ∧ time e' = Some t' ∧ (t ≤ t')%Z.
Proof.
  intros Hts Hrun. unfold worker_event in Hrun.
  by apply worker_values_notEarlier in Hrun.
Qed.

Lemma worker_value_same_event (now : Time) (ev ev' : EventMsg) (r : sliceRef)
    (kv : string * anyValue) (p : PrometheusOutput) :
  formatters.Name ev = formatters.Name ev' →
  formatters.Timestamp ev = formatters.Timestamp ev' →
  worker_value now ev r kv p = worker_value now ev' r kv p.
Proof. intros Hn Ht. unfold worker_value. by rewrite Hn, Ht. Qed.

Lemma worker_values_same_event (now : Time) (ev ev' : EventMsg) (r : sliceRef)
    (vals : list (string * anyValue)) (acc : outcome PrometheusOutput) :
  formatters.Name ev = formatters.Name ev' →
  formatters.Timestamp ev = formatters.Timestamp ev' →
  foldl (λ acc kv, p ←! acc; worker_value now ev r kv p) acc vals
  = foldl (λ acc kv, p ←! acc; worker_value now ev' r kv p) acc vals.
Proof.
  intros Hn Ht. revert acc. induction vals as [|kv vals IH]; intros acc.
  - done.
  - cbn [foldl]. rewrite IH. f_equal. destruct acc as [q|]; [|done].
    cbn [bindOutcome]. by apply worker_value_same_event.
Qed.

Lemma foldl_worker_step (now : Time) (ev : EventMsg) (r : sliceRef)
    (kv : string * anyValue) (vals : list (string * anyValue))
    (p : PrometheusOutput) :
  foldl (λ acc kv, p ←! acc; worker_value now ev r kv p) (Done p) (kv :: vals)
  = foldl (λ acc kv, p ←! acc; worker_value now ev r kv p)
      (worker_value now ev r kv p) vals.
Proof. reflexivity. Qed.

Lemma worker_value_refused (now : Time) (ev : EventMsg) (r : sliceRef)
    (vName : string) (val : anyValue) (p : PrometheusOutput) :
  StringsAsLabels (Cfg p) = false →
  (getFloat val).2 ≠ None →
  worker_value now ev r (vName, val) p = Done p.
Proof.
  intros Hs Hbad. unfold worker_value.
  destruct (getFloat val) as [v err]. simpl in Hbad.
  by rewrite Hs, bool_decide_eq_true_2.
Qed.

Lemma worker_values_filter (now : Time) (ev : EventMsg) (r : sliceRef)
    (vals : list (string * anyValue)) (p : PrometheusOutput) :
  StringsAsLabels (Cfg p) = false →
  foldl (λ acc kv, p ←! acc; worker_value now ev r kv p) (Done p) vals
  = foldl (λ acc kv, p ←! acc; worker_value now ev r kv p) (Done p)
      (filter (λ kv, (getFloat kv.2).2 = None) vals).
Proof.
  revert p. induction vals as [|[vName val] vals IH]; intros p Hs; [done|].
  destruct (decide ((getFloat val).2 = None)) as [Hok|Hbad].
  - rewrite filter_cons_True by done. rewrite !foldl_worker_step.
    destruct (worker_value now ev r (vName, val) p) as [q|] eqn:Hstep.
    + apply IH.
      apply worker_value_cases in Hstep as [->|(pm & _ & _ & Hup)]; [done|].
      apply upsert_cases in Hup as (-> & _). done.
    + by rewrite !foldl_worker_Panic.
  - rewrite filter_cons_False by done. rewrite foldl_worker_step.
    rewrite worker_value_refused by done. by apply IH.
Qed.

(** X16. When strings are no labels, the values that [getFloat] refuses
    leave no trace: ingesting an event gives what ingesting the event
    without these values gives. *)
Theorem worker_event_skips_refused (now : Time) (ev : EventMsg)
    (p : PrometheusOutput) :
  StringsAsLabels (Cfg p) = false →
  worker_event now ev p = worker_event now (numericValues ev) p.
Proof.
  intros Hs. unfold worker_event.
  assert (getLabels (Cfg p) (numericValues ev) = getLabels (Cfg p) ev) as ->.
  { unfold getLabels. by rewrite Hs. }
  rewrite worker_values_filter by done.
  set (vals := filter _ _).
  change (formatters.Values (numericValues ev)) with vals.
  by apply worker_values_same_event.
Qed.



End MoreIngestion.

Lemma worker_event_keeps_keys_witness :
  dom (entries (runOutput (runConfig minute true false)))
  ⊆ dom (entries (runOutput2 (runConfig minute true false)))
  ∧ size (entries (runOutput2 (runConfig minute true false)))
    ≤ size (entries (runOutput (runConfig minute true false)))
      + length (formatters.Values (portEvent 1500)).
Proof.
  apply (worker_event_keeps_keys 2000 (portEvent 1500)
           (runOutput (runConfig minute true false))).
  apply runOutput2_Done.
Defined.

Lemma worker_event_frame_witness :
  Cfg (runOutput2 (runConfig minute true false))
  = Cfg (runOutput (runConfig minute true false))
  ∧ length (slices (runOutput2 (runConfig minute true false)))
    = S (length (slices (runOutput (runConfig minute true false))))
  ∧ ∀ r, r < length (slices (runOutput (runConfig minute true false))) →
         readSlice (slices (runOutput2 (runConfig minute true false))) r
         = readSlice (slices (runOutput (runConfig minute true false))) r.
Proof.
  apply (worker_event_frame 2000 (portEvent 1500)
           (runOutput (runConfig minute true false))).
  apply runOutput2_Done.
Defined.

Lemma worker_event_never_back_in_time_witness :
  let p := runOutput (runConfig minute true false) in
  let p' := orElse (worker_event 2000 (octetsEvent 800) p) p in
  ∃ e' t', entries p' !! octetsKey = Some e' ∧ time e' = Some t'
           ∧ (900 ≤ t')%Z.
Proof.
  intros p p'.
  assert (ExportTimestamps (Cfg p) = true) as Hts by (vm_compute; reflexivity).
  assert (worker_event 2000 (octetsEvent 800) p = Done p') as Hrun
    by (apply orElse_Done; vm_compute; reflexivity).
  assert (entries p !! octetsKey
          = Some (@PromMetric runLibrary "in_octets" 0%nat (Some 900%Z)
                    (Some 1234%Z) 1000%Z)) as Hk
    by (vm_compute; reflexivity).
  exact (worker_event_never_back_in_time 2000 (octetsEvent 800) p p' Hts Hrun
           octetsKey _ 900%Z Hk eq_refl).
Defined.

Lemma worker_event_skips_refused_witness :
  worker_event 100 flagEvent (newOutput (runConfig minute true false))
  = worker_event 100 (numericValues flagEvent)
      (newOutput (runConfig minute true false)).
Proof.
  apply (worker_event_skips_refused 100 flagEvent
           (newOutput (runConfig minute true false))).
  reflexivity.
Defined.


(** *** More on the eviction *)

Section MoreEviction.

Context {L : Library}.

Lemma foldl_foldr_reverse {A B : Type} (f : A → B → B) (b : B) (l : list A) :
  foldl (λ acc x, f x acc) b l = foldr f b (reverse l).
Proof.
  revert b. induction l as [|x l IH]; intros b; [done|].
  by rewrite reverse_cons, foldr_app, <- IH.
Qed.

Lemma expireEntry_fold_Panic (cfg : Config) (expiry : Time)
    (a m : gmap N promMetric) :
  map_fold (expireEntry cfg expiry) (Done a) m = Panic
  ↔ ExportTimestamps cfg = true ∧ ∃ k e, m !! k = Some e ∧ time e = None.
Proof.
  apply (map_fold_weak_ind (λ r m,
    r = Panic
    ↔ ExportTimestamps cfg = true ∧ ∃ k e, m !! k = Some e ∧ time e = None)).
  - split; [done|]. intros (_ & k & e & Hk & _). by rewrite lookup_empty in Hk.
  - intros i x m' r Hi IH. split.
    + destruct r as [b|].
      * unfold expireEntry. simpl. destruct (ExportTimestamps cfg) eqn:Hts.
        -- destruct (time x) as [t|] eqn:Ht.
           ++ by destruct (Before t expiry).
           ++ intros _. split; [done|]. exists i, x.
              by rewrite lookup_insert_eq.
        -- by destruct (Before _ expiry).
      * intros _. destruct IH as [IH _].
        destruct (IH eq_refl) as (Hts & k & e & Hk & Ht).
        split; [done|]. exists k, e. split; [|done].
        rewrite lookup_insert_ne; [done|]. intros ->. congruence.
    + intros (Hts & k & e & Hk & Ht).
      destruct (decide (i = k)) as [->|Hne].
      * rewrite lookup_insert_eq in Hk. injection Hk as ->.
        destruct r as [b|]; [|done].
        unfold expireEntry. simpl. by rewrite Hts, Ht.
      * rewrite lookup_insert_ne in Hk by done.
        destruct IH as [_ IH]. rewrite IH; [done|].
        split; [done|]. by exists k, e.
Qed.

Lemma expireMetrics_Done_anchored (now : Time) (p p' : PrometheusOutput) :
  (0 < Expiration (Cfg p))%Z →
  expireMetrics now p = Done p' →
  ∀ k e, entries p !! k = Some e → is_Some (ageAnchor (Cfg p) e).
Proof.
  intros Hpos Hrun k e Hk. unfold ageAnchor.
  destruct (ExportTimestamps (Cfg p)) eqn:Hts; [|by eexists].
  destruct (time e) as [t|] eqn:Ht; [by eexists|]. exfalso.
  unfold expireMetrics in Hrun.
  destruct (Z.leb_spec (Expiration (Cfg p)) 0); [lia|].
  assert (map_fold (expireEntry (Cfg p) (Add now (- Expiration (Cfg p))))
            (Done (entries p)) (entries p) = Panic) as Hpanic.
  { apply expireEntry_fold_Panic. split; [done|]. by exists k, e. }
  by rewrite Hpanic in Hrun.
Qed.

Lemma expireMetrics_lookup (now : Time) (p : PrometheusOutput) :
  (0 < Expiration (Cfg p))%Z →
  (∀ k e, entries p !! k = Some e → is_Some (ageAnchor (Cfg p) e)) →
  ∃ p', expireMetrics now p = Done p'
        ∧ Cfg p' = Cfg p ∧ slices p' = slices p
        ∧ ∀ k, entries p' !! k =
               e ← entries p !! k;
               t ← ageAnchor (Cfg p) e;
               if (t <? now - Expiration (Cfg p))%Z then None else Some e.
Proof.
  intros Hpos Hsafe. unfold expireMetrics.
  destruct (Z.leb_spec (Expiration (Cfg p)) 0); [lia|].
  destruct (expireEntry_fold (Cfg p) (Add now (- Expiration (Cfg p)))
              (entries p) (entries p) Hsafe) as (a' & -> & Ha').
  eexists. split; [done|]. split; [done|]. split; [done|].
  intros k. simpl. rewrite Ha'. unfold Before, Add.
  replace (now + - Expiration (Cfg p))%Z with (now - Expiration (Cfg p))%Z
    by lia.
  destruct (entries p !! k) as [e|] eqn:Hk; [|done]. simpl.
  destruct (Hsafe k e Hk) as [t ->]. simpl. by destruct (_ <? _)%Z.
Qed.

Lemma expireMetrics_then (now1 now2 : Time) (p p1 : PrometheusOutput) :
  (now1 ≤ now2)%Z →
  expireMetrics now1 p = Done p1 →
  expireMetrics now2 p1 = expireMetrics now2 p.
Proof.
  intros Hle Hrun.
  destruct (Z.leb_spec (Expiration (Cfg p)) 0) as [Hoff|Hpos].
  { rewrite expireMetrics_disabled in Hrun by done. by injection Hrun as <-. }
  pose proof (expireMetrics_Done_anchored now1 p p1 Hpos Hrun) as Hsafe.
  destruct (expireMetrics_lookup now1 p Hpos Hsafe)
    as (q1 & Hq1 & Hcfg1 & Hsl1 & Hent1).
  rewrite Hrun in Hq1. injection Hq1 as <-.
  destruct (expireMetrics_lookup now2 p Hpos Hsafe)
    as (q2 & -> & Hcfg2 & Hsl2 & Hent2).
  destruct (expireMetrics_lookup now2 p1) as (q3 & -> & Hcfg3 & Hsl3 & Hent3).
  { by rewrite Hcfg1. }
  { intros k e Hk. rewrite Hcfg1.
    destruct (expireMetrics_subset now1 p p1 Hrun) as (_ & _ & Hsub).
    apply (Hsafe k). by apply Hsub. }
  f_equal. destruct q2 as [c2 e2 s2], q3 as [c3 e3 s3]. simpl in *.
  f_equal; [congruence| |congruence].
  apply map_eq. intros k. rewrite Hent3, Hent2, Hent1, Hcfg1.
  destruct (entries p !! k) as [e|] eqn:Hk; [|done]. simpl.
  destruct (ageAnchor (Cfg p) e) as [t|] eqn:Ht; [|done]. simpl.
  destruct (Z.ltb_spec t (now1 - Expiration (Cfg p))); simpl.
  - by destruct (Z.ltb_spec t (now2 - Expiration (Cfg p))); [|lia].
  - by rewrite Ht.
Qed.

(** X18. A sweep fails, on a nil timestamp, in one case only: eviction is
    on, timestamps are exported, and an entry has no timestamp. *)
Theorem expireMetrics_panics_iff (now : Time) (p : PrometheusOutput) :
  expireMetrics now p = Panic
  ↔ (0 < Expiration (Cfg p))%Z
    ∧ ExportTimestamps (Cfg p) = true
    ∧ ∃ k e, entries p !! k = Some e ∧ time e = None.
Proof.
  unfold expireMetrics.
  destruct (Z.leb_spec (Expiration (Cfg p)) 0) as [Hoff|Hpos].
  { split; [done|]. intros [? _]. lia. }
  pose proof (expireEntry_fold_Panic (Cfg p)
                (Add now (- Expiration (Cfg p))) (entries p) (entries p))
    as Hfold.
  destruct (map_fold _ _ (entries p)) as [a|]; simpl.
  - split; [done|]. intros (_ & Hrest). by apply Hfold in Hrest.
  - split; [|done]. intros _. split; [done|]. by apply Hfold.
Qed.

(** X19. A sweep after a sweep adds nothing to the later one alone: when
    the first, at [now1], has not failed, the second, at a time [now2] that
    is not earlier, gives from its result what it gives from the output
    before the first.  With [now2 = now1] the sweep is idempotent. *)
Theorem expireMetrics_twice (now1 now2 : Time) (p p1 : PrometheusOutput) :
  (now1 ≤ now2)%Z →
  expireMetrics now1 p = Done p1 →
  expireMetrics now2 p1 = expireMetrics now2 p
  ∧ expireMetrics now1 p1 = Done p1.
Proof.
  intros Hle Hrun. split; [by apply (expireMetrics_then now1)|].
  by rewrite (expireMetrics_then now1 now1 p p1).
Qed.

(** X20. The sweep does not depend on the order in which [range] visits
    the entries of the map: for every order [visit] of the entries the loop
    gives what [expireMetrics] gives. *)
Theorem expireMetrics_any_order (visit : list (N * promMetric))
    (now : Time) (p : PrometheusOutput) :
  visit ≡ₚ map_to_list (entries p) →
  expireMetricsIn visit now p = expireMetrics now p.
Proof.
  intros Hperm. unfold expireMetricsIn, expireMetrics.
  destruct (_ <=? _)%Z; [done|]. cbv zeta.
  rewrite <- (expireEntry_visit_order _ _ _ _ (reverse visit))
    by (by rewrite reverse_Permutation).
  rewrite <- foldl_foldr_reverse. f_equal.
  generalize (Done (entries p)). clear Hperm.
  induction visit as [|[k e] visit IH]; intros acc; [done|].
  simpl. apply IH.
Qed.

(** X21. The periodic sweeps at ticks that do not go back in time amount
    to the last of them: what is left after all of them is what the sweep at
    the last tick leaves of the output before the first. *)
Theorem expireMetricsPeriodic_last (ticks : list Time) (now : Time)
    (p p' : PrometheusOutput) :
  Sorted Z.le (ticks ++ [now]) →
  expireMetricsPeriodic (ticks ++ [now]) p = Done p' →
  expireMetrics now p = Done p'.
Proof.
  unfold expireMetricsPeriodic.
  destruct (Z.leb_spec (Expiration (Cfg p)) 0) as [Hoff|Hpos].
  { intros _ [= <-]. by apply expireMetrics_disabled. }
  revert p Hpos. induction ticks as [|t ticks IH]; intros p Hpos Hsorted.
  - simpl. by destruct (expireMetrics now p).
  - simpl. destruct (expireMetrics t p) as [p1|] eqn:Hrun; simpl.
    + intros Hrest.
      assert (t ≤ now)%Z as Hle.
      { apply Sorted_StronglySorted in Hsorted; [|intros ???; lia].
        inversion Hsorted as [|?? _ Hall]; subst.
        rewrite List.Forall_forall in Hall. apply Hall.
        apply in_or_app. right. by left. }
      rewrite <- (expireMetrics_then t now p p1 Hle Hrun).
      apply IH; [|by inversion Hsorted|done].
      by destruct (expireMetrics_subset t p p1 Hrun) as (-> & _).
    + intros Hrest. exfalso. clear -Hrest.
      induction (ticks ++ [now]) as [|? ? IHl]; [done|]. by apply IHl.
Qed.

(** X22. [Collect] sends the entries that its sweep leaves, each once and
    nothing else; each of them was an entry before the call, and with
    eviction on none of them is older than the expiration. *)
Theorem Collect_sends_live_entries (now : Time) (p p' : PrometheusOutput)
    (ms : list promMetric) :
  Collect now p = Done (ms, p') →
  expireMetrics now p = Done p'
  ∧ length ms = size (entries p')
  ∧ (∀ e, e ∈ ms ↔ ∃ k, entries p' !! k = Some e)
  ∧ (∀ e, e ∈ ms →
       ∃ k, entries p !! k = Some e
            ∧ ((0 < Expiration (Cfg p))%Z →
               ∃ t, ageAnchor (Cfg p) e = Some t
                    ∧ (now - Expiration (Cfg p) ≤ t)%Z)).
Proof.
  unfold Collect. destruct (expireMetrics now p) as [q|] eqn:Hrun; [|done].
  simpl. intros [= <- <-]. split; [done|]. split; [|split].
  - by rewrite length_fmap, length_map_to_list.
  - intros e. rewrite list_elem_of_fmap. split.
    + intros ([k e'] & -> & Hin). exists k. by apply elem_of_map_to_list.
    + intros [k Hk]. exists (k, e). split; [done|].
      by apply elem_of_map_to_list.
  - intros e ([k e'] & -> & Hin%elem_of_map_to_list)%list_elem_of_fmap.
    simpl. exists k.
    destruct (expireMetrics_subset now p q Hrun) as (_ & _ & Hsub).
    split; [by apply Hsub|]. intros Hpos.
    pose proof (expireMetrics_Done_anchored now p q Hpos Hrun) as Hsafe.
    destruct (expireMetrics_lookup now p Hpos Hsafe)
      as (q' & Hq' & _ & _ & Hent).
    rewrite Hrun in Hq'. injection Hq' as <-.
    pose proof (Hsub k e' Hin) as Hk.
    rewrite Hent, Hk in Hin. simpl in Hin.
    destruct (ageAnchor (Cfg p) e') as [t|]; [|done]. simpl in Hin.
    exists t. split; [done|].
    by destruct (Z.ltb_spec t (now - Expiration (Cfg p))); [|lia].
Qed.

End MoreEviction.

Lemma expireMetrics_twice_witness :
  let p := runOutput (runConfig minute false false) in
  let p1 := orElse (expireMetrics (1000 + minute - 1) p) p in
  expireMetrics (1000 + minute + 1) p1 = expireMetrics (1000 + minute + 1) p
  ∧ expireMetrics (1000 + minute - 1) p1 = Done p1.
Proof.
  intros p p1.
  assert (1000 + minute - 1 ≤ 1000 + minute + 1)%Z as Hle
    by (vm_compute; discriminate).
  assert (expireMetrics (1000 + minute - 1) p = Done p1) as Hrun
    by (apply orElse_Done; vm_compute; reflexivity).
  exact (expireMetrics_twice (1000 + minute - 1) (1000 + minute + 1) p p1
           Hle Hrun).
Defined.

Lemma expireMetrics_any_order_witness :
  let p := runOutput2 (runConfig minute false false) in
  expireMetricsIn (reverse (map_to_list (entries p))) (2000 + minute + 1) p
  = expireMetrics (2000 + minute + 1) p.
Proof.
  intros p.
  apply (expireMetrics_any_order (reverse (map_to_list (entries p)))).
  apply reverse_Permutation.
Defined.

Lemma expireMetricsPeriodic_last_witness :
  let p := runOutput (runConfig minute false false) in
  let p' := orElse (expireMetricsPeriodic
                      ([(1000 + minute - 1)%Z] ++ [(1000 + minute + 1)%Z]) p)
              p in
  expireMetrics (1000 + minute + 1) p = Done p'.
Proof.
  intros p p'.
  assert (Sorted Z.le ([(1000 + minute - 1)%Z] ++ [(1000 + minute + 1)%Z]))
    as Hsorted by (repeat constructor; vm_compute; discriminate).
  assert (expireMetricsPeriodic
            ([(1000 + minute - 1)%Z] ++ [(1000 + minute + 1)%Z]) p = Done p')
    as Hrun by (apply orElse_Done; vm_compute; reflexivity).
  exact (expireMetricsPeriodic_last [(1000 + minute - 1)%Z]
           (1000 + minute + 1) p p' Hsorted Hrun).
Defined.

Lemma Collect_sends_live_entries_witness :
  let p := runOutput2 (runConfig minute false false) in
  let p' := orElse (expireMetrics (1000 + minute + 1) p) p in
  let ms := snd <$> map_to_list (entries p') in
  expireMetrics (1000 + minute + 1) p = Done p'
  ∧ length ms = size (entries p')
  ∧ (∀ e, e ∈ ms ↔ ∃ k, entries p' !! k = Some e)
  ∧ (∀ e, e ∈ ms →
       ∃ k, entries p !! k = Some e
            ∧ ((0 < Expiration (Cfg p))%Z →
               ∃ t, ageAnchor (Cfg p) e = Some t
                    ∧ (1000 + minute + 1 - Expiration (Cfg p) ≤ t)%Z)).
Proof.
  intros p p' ms.
  assert (Collect (1000 + minute + 1) p = Done (ms, p')) as Hrun
    by (apply Collect_orElse; vm_compute; reflexivity).
  exact (Collect_sends_live_entries (1000 + minute + 1) p p' ms Hrun).
Defined.

(** *** The export of a metric *)

Section MoreExport.

Context {L : Library}.

(** X23. [Write] never returns an error and always sets the value.  A
    metric without a timestamp leaves [out.TimestampMs] as it finds it; a
    timestamp is written in milliseconds, cut toward zero: it differs from
    the timestamp by less than a millisecond and is not further from the
    epoch. *)
Theorem Write_timestamp_milliseconds (p : promMetric)
    (heap : list (list labelPair)) (out : dto.Metric) :
  (Write p heap out).2 = None
  ∧ dto.Untyped (Write p heap out).1 = Some (value p)
  ∧ match time p with
    | None => dto.TimestampMs (Write p heap out).1 = dto.TimestampMs out
    | Some t =>
        ∃ ms, dto.TimestampMs (Write p heap out).1 = Some ms
              ∧ (Z.abs (UnixNano t - ms * 1000000) < 1000000)%Z
              ∧ (Z.abs (ms * 1000000) ≤ Z.abs (UnixNano t))%Z
    end.
Proof.
  unfold Write. destruct (time p) as [t|]; simpl; [|done].
  split; [done|]. split; [done|]. eexists. split; [done|].
  unfold UnixNano. Z.quot_rem_to_equations. lia.
Qed.

(** X24. A metric that [Collect] sends from a reachable output describes
    and writes itself consistently: the label names of [Desc] are the names
    of the labels that [Write] writes, in the same order, which is ascending;
    and [Write] fills the timestamp of a new [dto.Metric] exactly when
    timestamps are exported. *)
Theorem Collect_metric_export `{!SortSliceSpec L} (cfg : Config) (now : Time)
    (p p' : PrometheusOutput) (ms : list promMetric) (e : promMetric)
    (out : dto.Metric) :
  reachable cfg p →
  Collect now p = Done (ms, p') →
  e ∈ ms →
  dto.TimestampMs out = None →
  variableLabels (Desc e (slices p'))
  = dto.Name <$> dto.Label (Write e (slices p') out).1
  ∧ Sorted (λ a b, String.ltb b a = false) (variableLabels (Desc e (slices p')))
  ∧ (is_Some (dto.TimestampMs (Write e (slices p') out).1)
     ↔ ExportTimestamps cfg = true).
Proof.
  intros Hreach Hrun Hin Hout. unfold Collect in Hrun.
  destruct (expireMetrics now p) as [q|] eqn:Hq; [|done].
  simpl in Hrun. injection Hrun as <- <-.
  assert (reachable cfg q) as Hreach' by (by eapply reachable_expire).
  apply list_elem_of_fmap in Hin as ([k e'] & -> & Hke%elem_of_map_to_list).
  simpl. split; [|split].
  - unfold Desc, Write. simpl.
    destruct (time e'); simpl; by rewrite <- list_fmap_compose.
  - destruct (reachable_labelsSorted cfg q Hreach' k e' Hke) as [_ Hsorted].
    unfold Desc. simpl.
    induction Hsorted as [|a l _ IH Hhd]; simpl; [constructor|].
    constructor; [done|]. destruct Hhd as [|b l Hab]; constructor.
    exact Hab.
  - destruct (reachable_timestamped cfg q Hreach') as [Hcfg Hinv].
    rewrite <- Hcfg, <- (Hinv k e' Hke). unfold Write.
    destruct (time e') as [t|]; simpl.
    + split; intros _; by eexists.
    + rewrite Hout. split; by intros [? ?].
Qed.

End MoreExport.

Lemma Collect_metric_export_witness :
  let p := runOutput2 (runConfig minute true false) in
  let p' := orElse (expireMetrics 2000 p) p in
  let e := @PromMetric runLibrary "out_octets" 1%nat (Some 1500%Z)
             (Some 7%Z) 2000%Z in
  variableLabels (Desc e (slices p'))
  = dto.Name <$> dto.Label (Write e (slices p') newMetric).1
  ∧ Sorted (λ a b, String.ltb b a = false)
      (variableLabels (Desc e (slices p')))
  ∧ (is_Some (dto.TimestampMs (Write e (slices p') newMetric).1)
     ↔ ExportTimestamps
         (Cfg (setDefaults (newOutput (runConfig minute true false))).1)
       = true).
Proof.
  intros p p' e.
  assert (Collect 2000 p = Done (snd <$> map_to_list (entries p'), p'))
    as Hrun by (apply Collect_orElse; vm_compute; reflexivity).
  assert (entries p' !! portKey = Some e) as Hk by (vm_compute; reflexivity).
  assert (e ∈ snd <$> map_to_list (entries p')) as Hin.
  { apply list_elem_of_fmap. exists (portKey, e). split; [reflexivity|].
    apply elem_of_map_to_list. exact Hk. }
  exact (Collect_metric_export
           (Cfg (setDefaults (newOutput (runConfig minute true false))).1)
           2000 p p' (snd <$> map_to_list (entries p')) e newMetric
           (runOutput2_reachable (runConfig minute true false))
           Hrun Hin eq_refl).
Defined.

(** *** More on the goroutines *)

Section MoreAtomicity.

Context {L : Library}.

Lemma worker_value_Cfg (now : Time) (ev : EventMsg) (r : sliceRef)
    (kv : string * anyValue) (p p' : PrometheusOutput) :
  worker_value now ev r kv p = Done p' → Cfg p' = Cfg p.
Proof.
  intros [->|(pm & _ & _ & Hup)]%worker_value_cases; [done|].
  by apply upsert_cases in Hup as (? & _).
Qed.

Lemma step_Cfg (s s' : system) (l : label) :
  step s l s' → Cfg (out s') = Cfg (out s).
Proof.
  destruct 1 as
    [s ev Hpc|s Hpc|s ev Hpc Hm|s ev now Hpc|s now ev r kv rest p' Hpc Hrun
    |s now ev r Hpc|s Hpc Hexp|s Hpc Hexp|s Hpc|s Hpc|s Hpc Hm
    |s now p' Hpc Hrun|s Hpc|s i Hpc|s i Hpc Hm|s i now p' Hpc Hrun
    |s i Hpc|s i Hpc]; simpl; try done.
  - by eapply worker_value_Cfg.
  - by apply expireMetrics_subset in Hrun as (? & _).
  - by apply expireMetrics_subset in Hrun as (? & _).
Qed.

Lemma running_Cfg (cfg : Config) (s : system) :
  running cfg s → Cfg (out s) = cfg.
Proof.
  induction 1 as [|s l s' _ IH Hstep]; [done|].
  by rewrite (step_Cfg s s' l Hstep).
Qed.

(** In a run the output is always one whose entries have a timestamp
    exactly when timestamps are exported, also in the middle of an event. *)
Lemma running_timestamped (cfg : Config) (s : system) :
  running cfg s → timestamped (out s).
Proof.
  intros Hrun. destruct (running_invariant cfg s Hrun) as [_ Hcons].
  unfold consistent in Hcons.
  destruct (workerAt s) as [| | |now ev r rest|];
    try (by apply (reachable_timestamped cfg)).
  destruct Hcons as (p0 & visited & Hreach & _ & _ & Hfold).
  destruct (reachable_timestamped cfg p0 Hreach) as [_ Hinv].
  destruct (worker_values_timestamped now ev r visited
              (withSlices (slices p0 ++ [getLabels (Cfg p0) ev]) p0))
    as (q & Hq & _ & Hq'); [done|].
  rewrite Hfold in Hq. by injection Hq as <-.
Qed.

(** X25. Mutual exclusion: in every state of a run at most one of the
    worker, the periodic sweeper and the calls of [Collect] is between its
    [Lock] and its [Unlock]. *)
Theorem mutual_exclusion (cfg : Config) (s : system) :
  running cfg s →
  ¬ (workerIn (workerAt s) ∧ expirerIn (expirerAt s))
  ∧ (∀ i, collectorIn (collectors s !! i) →
          ¬ workerIn (workerAt s) ∧ ¬ expirerIn (expirerAt s)
          ∧ ∀ j, collectorIn (collectors s !! j) → i = j).
Proof.
  intros Hrun.
  destruct (running_invariant cfg s Hrun) as [(Hw & He & Hc) _].
  split.
  - intros [Hin1 Hin2]. apply Hw in Hin1. apply He in Hin2. congruence.
  - intros i Hi. apply Hc in Hi. split; [|split].
    + intros Hin. apply Hw in Hin. congruence.
    + intros Hin. apply He in Hin. congruence.
    + intros j Hj. apply Hc in Hj. congruence.
Qed.

(** X26. No step of a run fails on a nil timestamp: in every state of a
    run the next value of the worker's loop is ingested, and a sweep, of the
    periodic sweeper or of [Collect], comes to its end, whatever the time. *)
Theorem running_no_panic (cfg : Config) (s : system) :
  running cfg s →
  (∀ now ev r kv rest,
     workerAt s = WLoop now ev r (kv :: rest) →
     ∃ p', worker_value now ev r kv (out s) = Done p')
  ∧ (∀ now, ∃ p', expireMetrics now (out s) = Done p').
Proof.
  intros Hrun. pose proof (running_timestamped cfg s Hrun) as Hinv. split.
  - intros now ev r kv rest _.
    destruct (worker_value_timestamped now ev r kv (out s) Hinv)
      as (p' & Hp' & _).
    by exists p'.
  - intros now.
    destruct (expireMetrics_timestamped now (out s) Hinv) as (p' & Hp' & _).
    by exists p'.
Qed.

(** X27. When the expiration is not positive, the periodic sweeper returns
    at its first test: in no state of a run is it past that test, so it never
    takes the lock and never sweeps. *)
Theorem expirer_off_never_locks (cfg : Config) (s : system) :
  (Expiration cfg ≤ 0)%Z →
  running cfg s →
  (expirerAt s = EStart ∨ expirerAt s = EReturned)
  ∧ mutex s ≠ Some OExpirer.
Proof.
  intros Hoff Hrun.
  assert (expirerAt s = EStart ∨ expirerAt s = EReturned) as Hpc.
  { induction Hrun as [|s l s' Hrun IH Hstep]; [by left|].
    pose proof (running_Cfg cfg s Hrun) as Hcfg.
    destruct Hstep as
      [s ev Hpc|s Hpc|s ev Hpc Hm|s ev now Hpc|s now ev r kv rest p' Hpc Hrun'
      |s now ev r Hpc|s Hpc Hexp|s Hpc Hexp|s Hpc|s Hpc|s Hpc Hm
      |s now p' Hpc Hrun'|s Hpc|s i Hpc|s i Hpc Hm|s i now p' Hpc Hrun'
      |s i Hpc|s i Hpc]; simpl; try done;
      try (by right); try (rewrite Hcfg in Hexp; lia);
      destruct IH; congruence. }
  split; [done|]. intros Hm.
  destruct (running_invariant cfg s Hrun) as [(_ & He & _) _].
  apply He in Hm. by destruct Hpc as [Hpc|Hpc]; rewrite Hpc in Hm.
Qed.

End MoreAtomicity.

Lemma mutual_exclusion_witness :
  ¬ (workerIn (workerAt runSystem4) ∧ expirerIn (expirerAt runSystem4))
  ∧ (∀ i, collectorIn (collectors runSystem4 !! i) →
          ¬ workerIn (workerAt runSystem4)
          ∧ ¬ expirerIn (expirerAt runSystem4)
          ∧ ∀ j, collectorIn (collectors runSystem4 !! j) → i = j).
Proof.
  apply (mutual_exclusion (runConfig minute false false) runSystem4).
  apply runSystem4_running.
Defined.

Lemma running_no_panic_witness :
  (∀ now ev r kv rest,
     workerAt runSystem4 = WLoop now ev r (kv :: rest) →
     ∃ p', worker_value now ev r kv (out runSystem4) = Done p')
  ∧ (∀ now, ∃ p', expireMetrics now (out runSystem4) = Done p').
Proof.
  apply (running_no_panic (runConfig minute false false) runSystem4).
  apply runSystem4_running.
Defined.

Lemma expirer_off_never_locks_witness :
  let s := setExpirer EReturned (initSystem (runConfig (-5) false false)) in
  (expirerAt s = EStart ∨ expirerAt s = EReturned)
  ∧ mutex s ≠ Some OExpirer.
Proof.
  intros s.
  apply (expirer_off_never_locks (runConfig (-5) false false) s).
  - vm_compute. discriminate.
  - apply (running_step _ (initSystem (runConfig (-5) false false)) Silent);
      [apply running_init|].
    apply expirer_off; [reflexivity|]. vm_compute. discriminate.
Defined.

(** *** The defaults of the configuration *)

Section MoreConfiguration.

Context {L : Library}.

(** X28. [setDefaults] fills what is empty and keeps what is set: after
    it the listen address and the path are not empty and the expiration is
    not zero, a value that was set is kept, the naming and export options
    and the entries are untouched; and it returns no error exactly when the
    listen address splits into a host and a port that is a number, which
    are then the address and the port of the configuration. *)
Theorem setDefaults_result (p : PrometheusOutput) :
  (Listen (Cfg (setDefaults p).1) ≠ ""
   ∧ Path (Cfg (setDefaults p).1) ≠ ""
   ∧ Expiration (Cfg (setDefaults p).1) ≠ 0%Z)
  ∧ ((Listen (Cfg p) ≠ "" → Listen (Cfg (setDefaults p).1) = Listen (Cfg p))
     ∧ (Path (Cfg p) ≠ "" → Path (Cfg (setDefaults p).1) = Path (Cfg p))
     ∧ (Expiration (Cfg p) ≠ 0%Z →
        Expiration (Cfg (setDefaults p).1) = Expiration (Cfg p)))
  ∧ (MetricPrefix (Cfg (setDefaults p).1) = MetricPrefix (Cfg p)
     ∧ AppendSubscriptionName (Cfg (setDefaults p).1)
       = AppendSubscriptionName (Cfg p)
     ∧ ExportTimestamps (Cfg (setDefaults p).1) = ExportTimestamps (Cfg p)
     ∧ StringsAsLabels (Cfg (setDefaults p).1) = StringsAsLabels (Cfg p)
     ∧ entries (setDefaults p).1 = entries p
     ∧ slices (setDefaults p).1 = slices p)
  ∧ ((setDefaults p).2 = None
     ↔ ∃ host prt n,
         SplitHostPort (Listen (Cfg (setDefaults p).1)) = Some (host, prt)
         ∧ Atoi prt = Some n
         ∧ address (Cfg (setDefaults p).1) = host
         ∧ port (Cfg (setDefaults p).1) = n).
Proof.
  unfold setDefaults. cbv zeta.
  set (listen := if String.eqb (Listen (Cfg p)) "" then defaultListen
                 else Listen (Cfg p)).
  set (path := if String.eqb (Path (Cfg p)) "" then defaultPath
               else Path (Cfg p)).
  set (expiration := if (Expiration (Cfg p) =? 0)%Z then defaultExpiration
                     else Expiration (Cfg p)).
  assert (listen ≠ "" ∧ (Listen (Cfg p) ≠ "" → listen = Listen (Cfg p)))
    as [Hl1 Hl2].
  { unfold listen. by destruct (String.eqb_spec (Listen (Cfg p)) ""). }
  assert (path ≠ "" ∧ (Path (Cfg p) ≠ "" → path = Path (Cfg p)))
    as [Hp1 Hp2].
  { unfold path. by destruct (String.eqb_spec (Path (Cfg p)) ""). }
  assert (expiration ≠ 0%Z
          ∧ (Expiration (Cfg p) ≠ 0%Z → expiration = Expiration (Cfg p)))
    as [He1 He2].
  { unfold expiration. by destruct (Z.eqb_spec (Expiration (Cfg p)) 0). }
  destruct (SplitHostPort listen) as [[host prt]|] eqn:Hsplit;
    [destruct (Atoi prt) as [n|] eqn:Hatoi|]; simpl;
    (split; [done|]); (split; [done|]); (split; [done|]).
  - split; [|done]. intros _. exists host, prt, n. by rewrite Hsplit.
  - split; [done|]. intros (host' & prt' & n' & Hs & Ha & _).
    rewrite Hsplit in Hs. injection Hs as <- <-. congruence.
  - split; [done|]. intros (host' & prt' & n' & Hs & _). congruence.
Qed.

End MoreConfiguration.
